(** * DirectoryBolt: the submission mapper and monitor

    A shallow embedding of
    [directories/submission_monitor_toolkit/submission_mapper_monitor.py]
    (the toolkit) and of the index writer of the older standalone script
    [directories/submission_mapper_monitor.py], with the properties of the
    form discovery and change-detection engine proved about it.

    Conventions of the embedding.
    - A Python [str] is a Rocq [string] whose characters are the code
      points 0..255 (Latin-1): [str.lower], [str.isalnum] and the code-point
      order of [sorted] are written out for that range; text outside it is
      not covered.  UTF-8 encoding is applied where the source hashes text.
    - A Python [dict] whose key order matters is a [list] of key/value
      pairs in insertion order; [None] is [option]'s [None].
    - The browser is an explicit [Page] record holding what each Playwright
      call answers (a value or an exception); files are fields of a
      [Store] record threaded through the run. *)

From Stdlib Require Import String Ascii ZArith NArith List Lia Bool.
From Stdlib Require Import DecimalString.
From stdpp Require Import base strings list gmap sorting.

Local Open Scope string_scope.
Local Open Scope list_scope.
Set Warnings "-register-all".

(* ===================================================================== *)
(** * Part I: definitions *)
(* ===================================================================== *)

(** ** Python text primitives *)

(** Code point of a character. *)
Definition code (c : ascii) : N := N_of_ascii c.

Definition between (lo hi : N) (c : ascii) : bool :=
  ((lo <=? code c) && (code c <=? hi))%N.

(** [str.lower] on one code point below 256: A-Z and the Latin-1 capitals
    U+00C0..U+00DE (the multiplication sign U+00D7 apart) move up by 32. *)
Definition lower_char (c : ascii) : ascii :=
  if between 65 90 c || (between 192 222 c && negb (code c =? 215)%N)
  then ascii_of_N (code c + 32)
  else c.

Fixpoint str_map (f : ascii → ascii) (s : string) : string :=
  match s with
  | EmptyString => EmptyString
  | String c t => String (f c) (str_map f t)
  end.

(** [s.lower()] *)
Definition lower (s : string) : string := str_map lower_char s.

(** [ch.isalnum()] on one code point below 256: ASCII digits and letters,
    the ordinal indicators, micro sign, superscript digits, vulgar
    fractions and the Latin-1 letters. *)
Definition isalnum (c : ascii) : bool :=
  between 48 57 c || between 65 90 c || between 97 122 c
  || (code c =? 170)%N || between 178 179 c || (code c =? 181)%N
  || between 185 186 c || between 188 190 c
  || between 192 214 c || between 216 246 c || between 248 255 c.

(** [c in chars] for a one-character [c]. *)
Fixpoint char_in (c : ascii) (chars : string) : bool :=
  match chars with
  | EmptyString => false
  | String d t => Ascii.eqb c d || char_in c t
  end.

(** [s.startswith(pre)] *)
Fixpoint starts_with (pre s : string) : bool :=
  match pre with
  | EmptyString => true
  | String a pre' =>
      match s with
      | EmptyString => false
      | String b s' => Ascii.eqb a b && starts_with pre' s'
      end
  end.

(** [needle in s] *)
Fixpoint contains (needle s : string) : bool :=
  starts_with needle s
  || match s with
     | EmptyString => false
     | String _ t => contains needle t
     end.

(** [s.lstrip(chars)], [s.rstrip(chars)] and [s.strip(chars)] *)
Fixpoint lstrip (chars s : string) : string :=
  match s with
  | EmptyString => EmptyString
  | String c t => if char_in c chars then lstrip chars t else s
  end.

Fixpoint rstrip (chars s : string) : string :=
  match s with
  | EmptyString => EmptyString
  | String c t =>
      match rstrip chars t with
      | EmptyString => if char_in c chars then EmptyString else String c EmptyString
      | t' => String c t'
      end
  end.

Definition strip (chars s : string) : string := rstrip chars (lstrip chars s).

(** [s.replace(old, new)] for a non-empty [old]: occurrences are taken left
    to right without overlap; [skip] counts the characters of a matched
    occurrence still to be passed over. *)
Fixpoint replace_go (old new : string) (skip : nat) (s : string) : string :=
  match s with
  | EmptyString => EmptyString
  | String c t =>
      match skip with
      | S k => replace_go old new k t
      | O =>
          if starts_with old s
          then new +:+ replace_go old new (String.length old - 1) t
          else String c (replace_go old new 0 t)
      end
  end.

Definition replace (old new s : string) : string := replace_go old new 0 s.

(** [sep.join(parts)] *)
Definition join (sep : string) (parts : list string) : string :=
  String.concat sep parts.

(** [str(n)] for a non-negative integer and for an integer *)
Definition str_of_nat (n : nat) : string :=
  NilZero.string_of_uint (Nat.to_uint n).

Definition str_of_N (n : N) : string :=
  NilZero.string_of_uint (N.to_uint n).

Definition str_of_Z (z : Z) : string :=
  NilZero.string_of_int (Z.to_int z).

(** ** [sanitize_site_id] *)

(** The generator expression of the first line: one character of
    [raw_value.lower()] is kept when alphanumeric, [-] or [_], and becomes
    [-] otherwise. *)
Definition sanitize_char (ch : ascii) : ascii :=
  if isalnum ch || char_in ch "-_" then ch else "-"%char.

(** [while "--" in value: value = value.replace("--", "-")]; every round
    shortens the string, so [fuel] rounds with [fuel] the length of the
    string reach the exit of the loop (lemma [collapse_dashes_clean]). *)
Fixpoint collapse_loop (fuel : nat) (value : string) : string :=
  match fuel with
  | O => value
  | S fuel' =>
      if contains "--" value
      then collapse_loop fuel' (replace "--" "-" value)
      else value
  end.

Definition collapse_dashes (value : string) : string :=
  collapse_loop (String.length value) value.

(** [value or default] on strings *)
Definition str_or (value default : string) : string :=
  match value with
  | EmptyString => default
  | _ => value
  end.

Definition sanitize_site_id (raw_value : string) : string :=
  let value := str_map sanitize_char (lower raw_value) in
  let value := strip "-_" value in
  let value := collapse_dashes value in
  str_or value "site".

(** Predicates on strings used to state what [sanitize_site_id] returns. *)
Fixpoint str_all (P : ascii → bool) (s : string) : bool :=
  match s with
  | EmptyString => true
  | String c t => P c && str_all P t
  end.

(** [s] does not start (resp. end) with a character of [chars]. *)
Definition head_ok (chars s : string) : bool :=
  match s with
  | EmptyString => true
  | String c _ => negb (char_in c chars)
  end.

Fixpoint last_ok (chars s : string) : bool :=
  match s with
  | EmptyString => true
  | String c EmptyString => negb (char_in c chars)
  | String _ t => last_ok chars t
  end.

(** A character that [sanitize_site_id] leaves alone: lower case already,
    and alphanumeric, [-] or [_]. *)
Definition kept_char (c : ascii) : bool :=
  Ascii.eqb (lower_char c) c && (isalnum c || char_in c "-_").

(** The shape of a site id: non-empty, made of kept characters, neither
    starting nor ending with [-] or [_], without two [-] in a row. *)
Definition clean_id (s : string) : bool :=
  str_all kept_char s && head_ok "-_" s && last_ok "-_" s
  && negb (contains "--" s) && negb (String.eqb s "").

(** ** SHA-256 (FIPS 180-4) and [sha256_text] *)

(** [payload.encode("utf-8")] for code points below 256: one byte below 128,
    two bytes from 128 on. *)
Fixpoint utf8_encode (s : string) : list N :=
  match s with
  | EmptyString => []
  | String c t =>
      let n := code c in
      if (n <? 128)%N then n :: utf8_encode t
      else (192 + n / 64)%N :: (128 + n mod 64)%N :: utf8_encode t
  end.

Module Sha256.
Local Open Scope N_scope.

(** 32-bit words are [N] below [2^32]; sums wrap around. *)
Definition mask32 : N := 4294967295.
Definition add32 (x y : N) : N := (x + y) mod 4294967296.
Definition not32 (x : N) : N := N.lxor x mask32.
Definition shr (n x : N) : N := N.shiftr x n.
Definition rotr (n x : N) : N :=
  N.lor (N.shiftr x n) (N.land (N.shiftl x (32 - n)) mask32).

Definition Ch (x y z : N) : N := N.lxor (N.land x y) (N.land (not32 x) z).
Definition Maj (x y z : N) : N :=
  N.lxor (N.lxor (N.land x y) (N.land x z)) (N.land y z).
Definition Sigma0 (x : N) : N := N.lxor (N.lxor (rotr 2 x) (rotr 13 x)) (rotr 22 x).
Definition Sigma1 (x : N) : N := N.lxor (N.lxor (rotr 6 x) (rotr 11 x)) (rotr 25 x).
Definition sigma0 (x : N) : N := N.lxor (N.lxor (rotr 7 x) (rotr 18 x)) (shr 3 x).
Definition sigma1 (x : N) : N := N.lxor (N.lxor (rotr 17 x) (rotr 19 x)) (shr 10 x).

Definition K : list N :=
  [1116352408; 1899447441; 3049323471; 3921009573; 961987163; 1508970993;
   2453635748; 2870763221; 3624381080; 310598401; 607225278; 1426881987;
   1925078388; 2162078206; 2614888103; 3248222580; 3835390401; 4022224774;
   264347078; 604807628; 770255983; 1249150122; 1555081692; 1996064986;
   2554220882; 2821834349; 2952996808; 3210313671; 3336571891; 3584528711;
   113926993; 338241895; 666307205; 773529912; 1294757372; 1396182291;
   1695183700; 1986661051; 2177026350; 2456956037; 2730485921; 2820302411;
   3259730800; 3345764771; 3516065817; 3600352804; 4094571909; 275423344;
   430227734; 506948616; 659060556; 883997877; 958139571; 1322822218;
   1537002063; 1747873779; 1955562222; 2024104815; 2227730452; 2361852424;
   2428436474; 2756734187; 3204031479; 3329325298].

Definition H0 : list N :=
  [1779033703; 3144134277; 1013904242; 2773480762;
   1359893119; 2600822924; 528734635; 1541459225].

(** Padding: the byte 0x80, zero bytes up to 56 modulo 64, then the bit
    length as a 64-bit big-endian integer. *)
Fixpoint be_bytes (count : nat) (x : N) : list N :=
  match count with
  | O => []
  | S k => be_bytes k (x / 256) ++ [x mod 256]
  end.

Definition pad (msg : list N) : list N :=
  let len := N.of_nat (length msg) in
  let zeros := N.to_nat ((119 - len mod 64) mod 64) in
  msg ++ [128] ++ repeat 0 zeros ++ be_bytes 8 (8 * len).

(** Big-endian 32-bit words of a byte string whose length is a multiple
    of four. *)
Fixpoint words (bytes : list N) : list N :=
  match bytes with
  | b0 :: b1 :: b2 :: b3 :: rest =>
      (((b0 * 256 + b1) * 256 + b2) * 256 + b3) :: words rest
  | _ => []
  end.

(** Message schedule, newest word first: [sched] holds W(t-1), W(t-2), ... *)
Fixpoint extend (count : nat) (sched : list N) : list N :=
  match count with
  | O => sched
  | S k =>
      let w := add32 (add32 (sigma1 (nth 1 sched 0)) (nth 6 sched 0))
                     (add32 (sigma0 (nth 14 sched 0)) (nth 15 sched 0)) in
      extend k (w :: sched)
  end.

Definition schedule (block : list N) : list N :=
  rev (extend 48 (rev block)).

Record regs := Regs { ra : N; rb : N; rc : N; rd : N; re : N; rf : N; rg : N; rh : N }.

Definition round (s : regs) (kw : N * N) : regs :=
  let t1 := add32 (add32 (add32 (rh s) (Sigma1 (re s)))
                         (add32 (Ch (re s) (rf s) (rg s)) (fst kw))) (snd kw) in
  let t2 := add32 (Sigma0 (ra s)) (Maj (ra s) (rb s) (rc s)) in
  Regs (add32 t1 t2) (ra s) (rb s) (rc s) (add32 (rd s) t1) (re s) (rf s) (rg s).

Definition regs_of (h : list N) : regs :=
  Regs (nth 0 h 0) (nth 1 h 0) (nth 2 h 0) (nth 3 h 0)
       (nth 4 h 0) (nth 5 h 0) (nth 6 h 0) (nth 7 h 0).

Definition compress (h : list N) (block : list N) : list N :=
  let s := fold_left round (combine K (schedule block)) (regs_of h) in
  [add32 (nth 0 h 0) (ra s); add32 (nth 1 h 0) (rb s);
   add32 (nth 2 h 0) (rc s); add32 (nth 3 h 0) (rd s);
   add32 (nth 4 h 0) (re s); add32 (nth 5 h 0) (rf s);
   add32 (nth 6 h 0) (rg s); add32 (nth 7 h 0) (rh s)].

(** The blocks of 16 words each; [fuel] bounds their number. *)
Fixpoint blocks (fuel : nat) (ws : list N) : list (list N) :=
  match fuel, ws with
  | S k, _ :: _ => firstn 16 ws :: blocks k (skipn 16 ws)
  | _, _ => []
  end.

Definition digest (msg : list N) : list N :=
  let ws := words (pad msg) in
  fold_left compress (blocks (length ws) ws) H0.

Definition hex_digit (n : N) : ascii :=
  if n <? 10 then ascii_of_N (48 + n) else ascii_of_N (87 + n).

Fixpoint hex (digits : nat) (x : N) : string :=
  match digits with
  | O => EmptyString
  | S k => hex k (x / 16) +:+ String (hex_digit (x mod 16)) EmptyString
  end.

(** [hashlib.sha256(data).hexdigest()] *)
Definition hexdigest (msg : list N) : string :=
  String.concat "" (map (hex 8) (digest msg)).
End Sha256.

(** [sha256_text] *)
Definition sha256_text (payload : string) : string :=
  Sha256.hexdigest (utf8_encode payload).

(** ** JSON values and [json.dumps(..., sort_keys=True, ensure_ascii=False)] *)

(** What [page.evaluate] hands back and [json.dumps] serialises.  A [dict]
    keeps its items in insertion order; its keys are strings. *)
Inductive json : Type :=
  | JNull
  | JBool (b : bool)
  | JInt (z : Z)
  | JStr (s : string)
  | JList (l : list json)
  | JDict (items : list (string * json)).

Definition dquote : string := String (ascii_of_N 34) EmptyString.
Definition backslash : string := String (ascii_of_N 92) EmptyString.

(** [json.encoder.ESCAPE_DCT]: the backslash, the double quote and the
    control characters below 0x20 are escaped; with [ensure_ascii=False]
    everything else is written as it is. *)
Definition escape_char (c : ascii) : string :=
  let n := code c in
  if (n =? 92)%N then backslash +:+ backslash
  else if (n =? 34)%N then backslash +:+ dquote
  else if (n =? 8)%N then backslash +:+ "b"
  else if (n =? 12)%N then backslash +:+ "f"
  else if (n =? 10)%N then backslash +:+ "n"
  else if (n =? 13)%N then backslash +:+ "r"
  else if (n =? 9)%N then backslash +:+ "t"
  else if (n <? 32)%N then backslash +:+ "u" +:+ Sha256.hex 4 n
  else String c EmptyString.

Fixpoint escape (s : string) : string :=
  match s with
  | EmptyString => EmptyString
  | String c t => escape_char c +:+ escape t
  end.

(** [json.encoder.encode_basestring] *)
Definition encode_basestring (s : string) : string :=
  dquote +:+ escape s +:+ dquote.

(** [sorted(...)] as a stable insertion sort for the order [le]; on keys
    that are pairwise distinct every sorting algorithm returns the same
    list. *)
Fixpoint insert_sorted {A} (le : A → A → bool) (x : A) (l : list A) : list A :=
  match l with
  | [] => [x]
  | y :: l' => if le x y then x :: l else y :: insert_sorted le x l'
  end.

Fixpoint py_sorted {A} (le : A → A → bool) (l : list A) : list A :=
  match l with
  | [] => []
  | x :: l' => insert_sorted le x (py_sorted le l')
  end.

(** The order of [sort_keys]: items compared by their key. *)
Definition key_leb {A} (a b : string * A) : bool := String.leb a.1 b.1.

(** One [key: value] member of an object, the value already serialised. *)
Definition dumps_member (kv : string * string) : string :=
  encode_basestring kv.1 +:+ ": " +:+ kv.2.

(** [json.dumps(v, sort_keys=True, ensure_ascii=False)] with the default
    separators.  The items of an object are sorted by key; the values are
    serialised before the sort, which only looks at the keys (lemma
    [py_sorted_key_map]). *)
Fixpoint dumps (v : json) : string :=
  match v with
  | JNull => "null"
  | JBool true => "true"
  | JBool false => "false"
  | JInt z => str_of_Z z
  | JStr s => encode_basestring s
  | JList l => "[" +:+ join ", " (map dumps l) +:+ "]"
  | JDict items =>
      "{" +:+ join ", "
            (map dumps_member
               (py_sorted key_leb (map (λ kv, (kv.1, dumps kv.2)) items)))
          +:+ "}"
  end.

(** [compute_form_signature] *)
Definition compute_form_signature (forms : list json) : string :=
  let canonical := dumps (JList forms) in
  sha256_text canonical.

(** Two JSON values that are equal as data: equal scalars, lists equal
    element by element in the same order, and objects with pairwise
    distinct keys holding the same key/value pairs, whatever the order in
    which the keys were inserted. *)
Inductive same_data : json → json → Prop :=
  | same_null : same_data JNull JNull
  | same_bool b : same_data (JBool b) (JBool b)
  | same_int z : same_data (JInt z) (JInt z)
  | same_str s : same_data (JStr s) (JStr s)
  | same_list l1 l2 :
      Forall2 same_data l1 l2 → same_data (JList l1) (JList l2)
  | same_dict items1 items2 items :
      NoDup (items1.*1) →
      Forall2 (λ a b, a.1 = b.1 ∧ same_data a.2 b.2) items1 items →
      items ≡ₚ items2 →
      same_data (JDict items1) (JDict items2).

(** ** Form descriptors: the value of [FORM_EXTRACTION_SCRIPT]

    The script returns one object per form, always with the same keys in
    the same order; [null] is [None].  [el.getAttribute] answers a string
    or [null], and [form.dataset] maps strings to strings. *)

Record FieldDescriptor := {
  field_name : option string;
  field_id : option string;
  field_tag : option string;
  field_type : option string;
  field_required : bool;
  field_placeholder : option string;
  field_labels : list string;
  field_ariaRequired : option string;
  field_autocomplete : option string;
}.

Record SubmitCandidate := {
  submit_selector : option string;
  submit_text : string;
  submit_type : string;
}.

Record FormDescriptor := {
  form_index : nat;
  form_action : option string;
  form_method : string;
  form_dataset : list (string * string);
  form_fields : list FieldDescriptor;
  form_submitters : list SubmitCandidate;
}.

Definition json_opt (o : option string) : json :=
  match o with
  | Some s => JStr s
  | None => JNull
  end.

(** The Python value of one field, submit candidate and form, keys in the
    order the script writes them. *)
Definition field_json (f : FieldDescriptor) : json :=
  JDict [("name", json_opt (field_name f));
         ("id", json_opt (field_id f));
         ("tag", json_opt (field_tag f));
         ("type", json_opt (field_type f));
         ("required", JBool (field_required f));
         ("placeholder", json_opt (field_placeholder f));
         ("labels", JList (map JStr (field_labels f)));
         ("ariaRequired", json_opt (field_ariaRequired f));
         ("autocomplete", json_opt (field_autocomplete f))].

Definition submit_json (s : SubmitCandidate) : json :=
  JDict [("selector", json_opt (submit_selector s));
         ("text", JStr (submit_text s));
         ("type", JStr (submit_type s))].

Definition form_json (f : FormDescriptor) : json :=
  JDict [("index", JInt (Z.of_nat (form_index f)));
         ("action", json_opt (form_action f));
         ("method", JStr (form_method f));
         ("dataset", JDict (map (λ kv, (kv.1, JStr kv.2)) (form_dataset f)));
         ("fields", JList (map field_json (form_fields f)));
         ("submitters", JList (map submit_json (form_submitters f)))].

(** ** [infer_multi_step] *)

Record MultiStep := {
  likely : bool;
  signals : list string;
}.

(** The [for key, value in dataset.items()] loop.  A dataset value is a
    string, so [value is not None] and [isinstance(value, str)] hold and
    [joined] is [key=value]. *)
Definition dataset_signals (dataset : list (string * string)) : list string :=
  flat_map (λ kv,
      let joined := kv.1 +:+ "=" +:+ kv.2 in
      if contains "step" (lower kv.1) || contains "step" (lower kv.2)
      then ["form-dataset:" +:+ joined]
      else [])
    dataset.

Definition continuation_terms : list string :=
  ["next"; "continue"; "step"; "proceed"; "save & next"].

(** The [for submit in form.get("submitters", [])] loop. *)
Definition submit_signals (submitters : list SubmitCandidate) : list string :=
  flat_map (λ submit,
      let text := lower (str_or (submit_text submit) "") in
      if existsb (λ term, contains term text) continuation_terms
      then (if negb (String.eqb text "") then ["submit-text:" +:+ text] else [])
      else [])
    submitters.

(** The list [signals] as the source appends to it, before [set] and
    [sorted]. *)
Definition collected_signals (forms : list FormDescriptor) (dom_html : string)
  : list string :=
  let html_lower := lower (str_or dom_html "") in
  (if contains "data-step" html_lower then ["dom:data-step"] else [])
  ++ (if contains "form-step" html_lower then ["dom:form-step"] else [])
  ++ (if contains "wizard" html_lower then ["dom:wizard-keyword"] else [])
  ++ (if contains "progressbar" html_lower then ["dom:progressbar"] else [])
  ++ flat_map (λ form,
         dataset_signals (form_dataset form)
         ++ submit_signals (form_submitters form)) forms
  ++ (if (1 <? length forms)%nat then ["multiple-forms-on-page"] else []).

(** [sorted(set(signals))]: [set] keeps one copy of each string (in an
    order Python does not fix), [sorted] orders them by code points. *)
Definition sorted_set (l : list string) : list string :=
  py_sorted String.leb (remove_dups l).

Definition infer_multi_step (forms : list FormDescriptor) (dom_html : string)
  : MultiStep :=
  let unique_signals := sorted_set (collected_signals forms dom_html) in
  {| likely := negb (bool_decide (unique_signals = []));
     signals := unique_signals |}.

(** A Python [dict] never holds a key twice: the JSON values that stand
    for Python values have pairwise distinct keys in every object. *)
Fixpoint distinct_keys (v : json) : bool :=
  match v with
  | JList l => forallb distinct_keys l
  | JDict items =>
      bool_decide (NoDup (items.*1))
      && forallb (λ kv, distinct_keys kv.2) items
  | _ => true
  end.

(** Sample forms: a newsletter form with a two-entry dataset, two fields
    and two submit candidates, and a search form. *)
Definition email_field : FieldDescriptor :=
  {| field_name := Some "email"; field_id := Some "email";
     field_tag := Some "input"; field_type := Some "email";
     field_required := true; field_placeholder := Some "you@example.com";
     field_labels := ["Email"]; field_ariaRequired := None;
     field_autocomplete := Some "email" |}.

Definition name_field : FieldDescriptor :=
  {| field_name := Some "name"; field_id := None;
     field_tag := Some "input"; field_type := Some "text";
     field_required := false; field_placeholder := None;
     field_labels := []; field_ariaRequired := None;
     field_autocomplete := None |}.

Definition next_button : SubmitCandidate :=
  {| submit_selector := Some "button#next"; submit_text := "Next";
     submit_type := "submit" |}.

Definition other_next_button : SubmitCandidate :=
  {| submit_selector := Some "html > body > form > button";
     submit_text := "Next"; submit_type := "button" |}.

Definition back_button : SubmitCandidate :=
  {| submit_selector := Some "button#back"; submit_text := "Back";
     submit_type := "button" |}.

Definition signup_form : FormDescriptor :=
  {| form_index := 0; form_action := Some "/signup"; form_method := "post";
     form_dataset := [("kind", "signup"); ("origin", "footer")];
     form_fields := [email_field; name_field];
     form_submitters := [next_button; back_button] |}.

Definition search_form : FormDescriptor :=
  {| form_index := 1; form_action := None; form_method := "get";
     form_dataset := []; form_fields := [];
     form_submitters := [] |}.

(** [signup_form] as a Python value whose objects were filled in another
    order: the keys of the form and of its dataset come last to first. *)
Definition signup_form_reordered : json :=
  JDict [("submitters", JList (map submit_json [next_button; back_button]));
         ("fields", JList (map field_json [email_field; name_field]));
         ("dataset", JDict [("origin", JStr "footer"); ("kind", JStr "signup")]);
         ("method", JStr "post");
         ("action", JStr "/signup");
         ("index", JInt 0)].

Definition set_fields (fields : list FieldDescriptor) (f : FormDescriptor)
  : FormDescriptor :=
  {| form_index := form_index f; form_action := form_action f;
     form_method := form_method f; form_dataset := form_dataset f;
     form_fields := fields; form_submitters := form_submitters f |}.

Definition set_submitters (submitters : list SubmitCandidate) (f : FormDescriptor)
  : FormDescriptor :=
  {| form_index := form_index f; form_action := form_action f;
     form_method := form_method f; form_dataset := form_dataset f;
     form_fields := form_fields f; form_submitters := submitters |}.

(** ** [compare_maps] and the capture payload *)

Inductive Mode := ModeMap | ModeMonitor.

Definition mode_name (m : Mode) : string :=
  match m with
  | ModeMap => "map"
  | ModeMonitor => "monitor"
  end.

Inductive Status := StatusOk | StatusError.

Definition status_name (s : Status) : string :=
  match s with
  | StatusOk => "ok"
  | StatusError => "error"
  end.

Record Artifacts := {
  art_map_html : string;
  art_screenshot : string;
  art_map_json : string;
}.

(** The dictionary [payload] that [_capture_target] builds and that
    [map.json] stores, one field per key. *)
Record CaptureMap := {
  tool_version : string;
  site_id : string;
  raw_site_id : string;
  homepage : string;
  submission_url : option string;
  target_url : option string;
  resolved_url : option string;
  captured_at : string;
  mode : Mode;
  status : Status;
  error : option string;
  status_code : option Z;
  dom_checksum : option string;
  form_signature : option string;
  form_count : nat;
  field_count : nat;
  has_captcha : bool;
  multi_step_signal : MultiStep;
  likely_multi_step : bool;
  forms : list FormDescriptor;
  submitters : list string;
  notes : string;
  artifacts : Artifacts;
  load_duration_ms : option N;
}.

Inductive ChangeType := DOM | FORMS | CAPTCHA | STEP_HINT | URL.

Definition change_name (c : ChangeType) : string :=
  match c with
  | DOM => "DOM"
  | FORMS => "FORMS"
  | CAPTCHA => "CAPTCHA"
  | STEP_HINT => "STEP_HINT"
  | URL => "URL"
  end.

Record Diff := {
  changed : bool;
  change_types : list ChangeType;
}.

(** [x or ""] for an optional string *)
Definition opt_or_empty (o : option string) : string :=
  match o with
  | Some s => s
  | None => ""
  end.

(** [a != b] *)
Definition differs {A} `{EqDecision A} (a b : A) : bool :=
  negb (bool_decide (a = b)).

(** [compare_maps] *)
Definition compare_maps (previous current : CaptureMap) : Diff :=
  let changes :=
    (if differs (dom_checksum previous) (dom_checksum current) then [DOM] else [])
    ++ (if differs (form_signature previous) (form_signature current)
        then [FORMS] else [])
    ++ (if differs (has_captcha previous) (has_captcha current)
        then [CAPTCHA] else [])
    ++ (if differs (likely_multi_step previous) (likely_multi_step current)
        then [STEP_HINT] else [])
    ++ (if differs (opt_or_empty (resolved_url previous))
                   (opt_or_empty (resolved_url current))
        then [URL] else []) in
  {| changed := negb (bool_decide (changes = []));
     change_types := changes |}.

(** ** Targets *)

Record Target := {
  t_site_id : string;
  t_homepage : string;
  t_submission_url : option string;
  t_notes : string;
  t_raw_site_id : string;
}.

(** The property [Target.target_url] *)
Definition t_target_url (t : Target) : option string :=
  let url := match t_submission_url t with
             | Some (String c u) => String c u
             | _ => t_homepage t
             end in
  match url with
  | EmptyString => None
  | _ => Some url
  end.

(** ** The browser page *)

(** Playwright's [TimeoutError] is a subclass of its [Error]; everything
    else that [except Exception] catches is [OtherException]. *)
Inductive exn :=
  | PlaywrightTimeoutError (msg : string)
  | PlaywrightError (msg : string)
  | OtherException (msg : string).

Definition is_playwright_error (e : exn) : bool :=
  match e with
  | PlaywrightTimeoutError _ | PlaywrightError _ => true
  | OtherException _ => false
  end.

Definition exn_message (e : exn) : string :=
  match e with
  | PlaywrightTimeoutError m | PlaywrightError m | OtherException m => m
  end.

(** What one fresh page answers to each call [_capture_target] makes on
    it: a value, or the exception the call raises.  [page_goto] answers
    the status of the response, [None] when there is no response. *)
Record Page := {
  page_goto : string → exn + option Z;
  page_url : string;
  page_wait_for_timeout : option exn;
  page_content : exn + string;
  page_screenshot : option exn;
  page_evaluate : exn + list FormDescriptor;
  page_locator_count : string → exn + nat;
  page_elapsed_ms : N;
}.

(** ** [detect_captcha] *)

Definition captcha_keywords : list string :=
  ["captcha"; "recaptcha"; "hcaptcha"; "arkose"].

Definition captcha_selectors : list string :=
  ["iframe[src*='recaptcha']"; ".g-recaptcha"; ".grecaptcha-badge";
   "iframe[src*='hcaptcha']"; ".h-captcha"; "div[id*='captcha']";
   "iframe[src*='arkoselabs']"].

(** The [for selector in selectors] loop inside [try]: the first selector
    that counts an element answers [True]; a Playwright error answers
    [False]; any other exception leaves [detect_captcha]. *)
Fixpoint probe_selectors (page : Page) (selectors : list string) : exn + bool :=
  match selectors with
  | [] => inr false
  | selector :: rest =>
      match page_locator_count page selector with
      | inr n => if (0 <? n)%nat then inr true else probe_selectors page rest
      | inl e => if is_playwright_error e then inr false else inl e
      end
  end.

Definition detect_captcha (page : Page) (dom_html : string) : exn + bool :=
  let dom_lower := lower (str_or dom_html "") in
  if existsb (λ keyword, contains keyword dom_lower) captcha_keywords
  then inr true
  else probe_selectors page captcha_selectors.

(** ** Files under the output directory *)

(** One row of [master_index.csv], columns in the order of
    [MASTER_HEADERS].  A cell is read back as it was written: the type
    inference of [pandas.read_csv] is not part of the embedding. *)
Record MasterRow := {
  mr_site_id : string;
  mr_homepage : string;
  mr_submission_url : string;
  mr_notes : string;
  mr_target_url : string;
  mr_resolved_url : string;
  mr_last_mode : string;
  mr_last_captured_at : string;
  mr_status : string;
  mr_last_error : string;
  mr_dom_checksum : string;
  mr_form_signature : string;
  mr_form_count : nat;
  mr_field_count : nat;
  mr_has_captcha : bool;
  mr_likely_multi_step : bool;
  mr_map_json : string;
  mr_map_html : string;
  mr_screenshot : string;
  mr_captured_with : string;
}.

(** One row of [events.csv], columns in the order of [EVENT_HEADERS]. *)
Record EventRow := {
  ev_timestamp : string;
  ev_site_id : string;
  ev_level : string;
  ev_change_type : string;
  ev_dom_checksum_prev : string;
  ev_dom_checksum_new : string;
  ev_form_signature_prev : string;
  ev_form_signature_new : string;
  ev_resolved_url_prev : string;
  ev_resolved_url_new : string;
  ev_details : string;
}.

(** The content of one [map.json]: text that [json.loads] rejects, or a
    payload written by an earlier run. *)
Inductive MapFile :=
  | Unreadable
  | MapDoc (m : CaptureMap).

(** The output directory: [<site_id>/map.json], [<site_id>/map.html] and
    [<site_id>/sshot.png] by site id, [master_index.csv] ([None] while the
    file does not exist) and the rows of [events.csv]. *)
Record Store := {
  map_json_files : gmap string MapFile;
  map_html_files : gmap string string;
  screenshot_files : gset string;
  master_index : option (list MasterRow);
  events_log : list EventRow;
}.

Definition empty_store : Store :=
  {| map_json_files := ∅; map_html_files := ∅; screenshot_files := ∅;
     master_index := None; events_log := [] |}.

Definition index_rows (st : Store) : list MasterRow :=
  default [] (master_index st).

Definition write_map_html (sid html : string) (st : Store) : Store :=
  {| map_json_files := map_json_files st;
     map_html_files := <[sid := html]> (map_html_files st);
     screenshot_files := screenshot_files st;
     master_index := master_index st;
     events_log := events_log st |}.

Definition write_screenshot (sid : string) (st : Store) : Store :=
  {| map_json_files := map_json_files st;
     map_html_files := map_html_files st;
     screenshot_files := {[sid]} ∪ screenshot_files st;
     master_index := master_index st;
     events_log := events_log st |}.

(** [_write_map_json] *)
Definition _write_map_json (sid : string) (payload : CaptureMap) (st : Store)
  : Store :=
  {| map_json_files := <[sid := MapDoc payload]> (map_json_files st);
     map_html_files := map_html_files st;
     screenshot_files := screenshot_files st;
     master_index := master_index st;
     events_log := events_log st |}.

Definition write_master_index (rows : list MasterRow) (st : Store) : Store :=
  {| map_json_files := map_json_files st;
     map_html_files := map_html_files st;
     screenshot_files := screenshot_files st;
     master_index := Some rows;
     events_log := events_log st |}.

(** [append_csv_row(events_path, EVENT_HEADERS, row)] *)
Definition append_event (row : EventRow) (st : Store) : Store :=
  {| map_json_files := map_json_files st;
     map_html_files := map_html_files st;
     screenshot_files := screenshot_files st;
     master_index := master_index st;
     events_log := events_log st ++ [row] |}.

(** [_load_existing_map]: [None] when the file is missing or cannot be
    parsed. *)
Definition _load_existing_map (sid : string) (st : Store) : option CaptureMap :=
  match map_json_files st !! sid with
  | Some (MapDoc m) => Some m
  | Some Unreadable => None
  | None => None
  end.

(** ** [_capture_target] *)

Definition TOOL_VERSION : string := "1.0.0".

Definition set_error (e : option string) (p : CaptureMap) : CaptureMap :=
  {| tool_version := tool_version p; site_id := site_id p;
     raw_site_id := raw_site_id p; homepage := homepage p;
     submission_url := submission_url p; target_url := target_url p;
     resolved_url := resolved_url p; captured_at := captured_at p;
     mode := mode p; status := status p; error := e;
     status_code := status_code p; dom_checksum := dom_checksum p;
     form_signature := form_signature p; form_count := form_count p;
     field_count := field_count p; has_captcha := has_captcha p;
     multi_step_signal := multi_step_signal p;
     likely_multi_step := likely_multi_step p; forms := forms p;
     submitters := submitters p; notes := notes p; artifacts := artifacts p;
     load_duration_ms := load_duration_ms p |}.

Definition set_resolved_url (u : option string) (p : CaptureMap) : CaptureMap :=
  {| tool_version := tool_version p; site_id := site_id p;
     raw_site_id := raw_site_id p; homepage := homepage p;
     submission_url := submission_url p; target_url := target_url p;
     resolved_url := u; captured_at := captured_at p;
     mode := mode p; status := status p; error := error p;
     status_code := status_code p; dom_checksum := dom_checksum p;
     form_signature := form_signature p; form_count := form_count p;
     field_count := field_count p; has_captcha := has_captcha p;
     multi_step_signal := multi_step_signal p;
     likely_multi_step := likely_multi_step p; forms := forms p;
     submitters := submitters p; notes := notes p; artifacts := artifacts p;
     load_duration_ms := load_duration_ms p |}.

Definition set_status_code (c : option Z) (p : CaptureMap) : CaptureMap :=
  {| tool_version := tool_version p; site_id := site_id p;
     raw_site_id := raw_site_id p; homepage := homepage p;
     submission_url := submission_url p; target_url := target_url p;
     resolved_url := resolved_url p; captured_at := captured_at p;
     mode := mode p; status := status p; error := error p;
     status_code := c; dom_checksum := dom_checksum p;
     form_signature := form_signature p; form_count := form_count p;
     field_count := field_count p; has_captcha := has_captcha p;
     multi_step_signal := multi_step_signal p;
     likely_multi_step := likely_multi_step p; forms := forms p;
     submitters := submitters p; notes := notes p; artifacts := artifacts p;
     load_duration_ms := load_duration_ms p |}.

Definition set_load_duration_ms (d : option N) (p : CaptureMap) : CaptureMap :=
  {| tool_version := tool_version p; site_id := site_id p;
     raw_site_id := raw_site_id p; homepage := homepage p;
     submission_url := submission_url p; target_url := target_url p;
     resolved_url := resolved_url p; captured_at := captured_at p;
     mode := mode p; status := status p; error := error p;
     status_code := status_code p; dom_checksum := dom_checksum p;
     form_signature := form_signature p; form_count := form_count p;
     field_count := field_count p; has_captcha := has_captcha p;
     multi_step_signal := multi_step_signal p;
     likely_multi_step := likely_multi_step p; forms := forms p;
     submitters := submitters p; notes := notes p; artifacts := artifacts p;
     load_duration_ms := d |}.

(** The [payload.update({...})] at the end of the [try] block: all the
    results of a successful capture are stored in one step. *)
Definition payload_update (dom_checksum' form_signature' : string)
    (forms' : list FormDescriptor) (field_count' : nat)
    (submitters' : list string) (has_captcha' : bool)
    (multi_step : MultiStep) (p : CaptureMap) : CaptureMap :=
  {| tool_version := tool_version p; site_id := site_id p;
     raw_site_id := raw_site_id p; homepage := homepage p;
     submission_url := submission_url p; target_url := target_url p;
     resolved_url := resolved_url p; captured_at := captured_at p;
     mode := mode p; status := StatusOk; error := None;
     status_code := status_code p; dom_checksum := Some dom_checksum';
     form_signature := Some form_signature'; form_count := length forms';
     field_count := field_count'; has_captcha := has_captcha';
     multi_step_signal := multi_step;
     likely_multi_step := likely multi_step; forms := forms';
     submitters := submitters'; notes := notes p; artifacts := artifacts p;
     load_duration_ms := load_duration_ms p |}.

(** The dictionary [payload] as [_capture_target] first builds it. *)
Definition initial_payload (target : Target) (mode' : Mode) (timestamp : string)
  : CaptureMap :=
  {| tool_version := TOOL_VERSION; site_id := t_site_id target;
     raw_site_id := t_raw_site_id target; homepage := t_homepage target;
     submission_url := t_submission_url target;
     target_url := t_target_url target;
     resolved_url := None; captured_at := timestamp;
     mode := mode'; status := StatusError; error := None;
     status_code := None; dom_checksum := None;
     form_signature := None; form_count := 0;
     field_count := 0; has_captcha := false;
     multi_step_signal := {| likely := false; signals := [] |};
     likely_multi_step := false; forms := [];
     submitters := []; notes := t_notes target;
     artifacts := {| art_map_html := t_site_id target +:+ "/map.html";
                     art_screenshot := t_site_id target +:+ "/sshot.png";
                     art_map_json := t_site_id target +:+ "/map.json" |};
     load_duration_ms := None |}.

(** The body of the [try] statement runs in a monad that threads the
    output directory and the payload and stops at the first exception;
    what was written before the exception stays written. *)
Definition Try (A : Type) : Type :=
  Store * CaptureMap → (Store * CaptureMap) * (exn + A).

Definition try_ret {A} (a : A) : Try A := λ s, (s, inr a).

Definition try_bind {A B} (m : Try A) (k : A → Try B) : Try B :=
  λ s, match m s with
       | (s', inl e) => (s', inl e)
       | (s', inr a) => k a s'
       end.

Notation "x ←! m ;; k" := (try_bind m (λ x, k))
  (at level 100, m at next level, right associativity,
   format "x  ←!  m ;;  '/' k").

(** A call that answers [r] *)
Definition call {A} (r : exn + A) : Try A := λ s, (s, r).

Definition raised (r : option exn) : exn + unit :=
  match r with
  | Some e => inl e
  | None => inr tt
  end.

Definition on_payload (f : CaptureMap → CaptureMap) : Try unit :=
  λ s, ((s.1, f s.2), inr tt).

Definition on_store (f : Store → Store) : Try unit :=
  λ s, ((f s.1, s.2), inr tt).

(** [page.screenshot] inside its own [try]: a Playwright error is logged
    and swallowed, another exception goes on to the outer handlers. *)
Definition take_screenshot (page : Page) (sid : string) : Try unit :=
  match page_screenshot page with
  | None => on_store (write_screenshot sid)
  | Some e => if is_playwright_error e then try_ret tt else call (inl e)
  end.

(** [sorted({submit.get("selector") ... if submit.get("selector")})] *)
Definition submitter_selectors (forms' : list FormDescriptor) : list string :=
  sorted_set
    (flat_map (λ form,
        flat_map (λ submit,
            match submit_selector submit with
            | Some (String c s) => [String c s]
            | _ => []
            end)
          (form_submitters form))
      forms').

Definition count_fields (forms' : list FormDescriptor) : nat :=
  foldr (λ form n, (length (form_fields form) + n)%nat) 0%nat forms'.

(** The body of [try:] in [_capture_target].  [page.evaluate] answers the
    list built by [FORM_EXTRACTION_SCRIPT], so the [isinstance(forms,
    list)] test holds. *)
Definition try_body (page : Page) (target : Target) (url : string) : Try unit :=
  response ←! call (page_goto page url) ;;
  _ ←! on_payload (set_resolved_url (Some (page_url page))) ;;
  _ ←! on_payload (match response with
                   | Some code => set_status_code (Some code)
                   | None => id
                   end) ;;
  _ ←! call (raised (page_wait_for_timeout page)) ;;
  html ←! call (page_content page) ;;
  _ ←! on_store (write_map_html (t_site_id target) html) ;;
  _ ←! take_screenshot page (t_site_id target) ;;
  forms' ←! call (page_evaluate page) ;;
  has_captcha' ←! call (detect_captcha page html) ;;
  let multi_step := infer_multi_step forms' html in
  let form_signature' := compute_form_signature (map form_json forms') in
  let dom_checksum' := sha256_text html in
  let submitters' := submitter_selectors forms' in
  let field_count' := count_fields forms' in
  on_payload (payload_update dom_checksum' form_signature' forms' field_count'
                             submitters' has_captcha' multi_step).

(** The three [except] clauses, in their order. *)
Definition handle_exception (timeout : N) (e : exn) (p : CaptureMap)
  : CaptureMap :=
  match e with
  | PlaywrightTimeoutError m =>
      set_error (Some ("Navigation timeout after " +:+ str_of_N timeout
                       +:+ " ms: " +:+ m)) p
  | PlaywrightError m => set_error (Some ("Playwright error: " +:+ m)) p
  | OtherException m => set_error (Some ("Unexpected error: " +:+ m)) p
  end.

(** [_capture_target]; [timeout] is [self.timeout], [timestamp] the
    reading of [utc_now_iso()]. *)
Definition _capture_target (timeout : N) (page : Page) (target : Target)
    (mode' : Mode) (timestamp : string) (st : Store) : Store * CaptureMap :=
  let payload := initial_payload target mode' timestamp in
  match t_target_url target with
  | None =>
      (st, set_error
             (Some "Missing submission_url and homepage; nothing to capture.")
             payload)
  | Some url =>
      let '((st', payload'), outcome) := try_body page target url (st, payload) in
      let payload' := match outcome with
                      | inl e => handle_exception timeout e payload'
                      | inr _ => payload'
                      end in
      (st', set_load_duration_ms (Some (page_elapsed_ms page)) payload')
  end.

(** ** [_record_master_index] *)

(** The dictionary [row] built from the capture. *)
Definition master_row (capture : CaptureMap) : MasterRow :=
  {| mr_site_id := site_id capture;
     mr_homepage := str_or (homepage capture) "";
     mr_submission_url := opt_or_empty (submission_url capture);
     mr_notes := str_or (notes capture) "";
     mr_target_url := opt_or_empty (target_url capture);
     mr_resolved_url := opt_or_empty (resolved_url capture);
     mr_last_mode := str_or (mode_name (mode capture)) "";
     mr_last_captured_at := str_or (captured_at capture) "";
     mr_status := str_or (status_name (status capture)) "error";
     mr_last_error := opt_or_empty (error capture);
     mr_dom_checksum := opt_or_empty (dom_checksum capture);
     mr_form_signature := opt_or_empty (form_signature capture);
     mr_form_count := form_count capture;
     mr_field_count := field_count capture;
     mr_has_captcha := has_captcha capture;
     mr_likely_multi_step := likely_multi_step capture;
     mr_map_json := art_map_json (artifacts capture);
     mr_map_html := art_map_html (artifacts capture);
     mr_screenshot := art_screenshot (artifacts capture);
     mr_captured_with := TOOL_VERSION |}.

(** [mask = df["site_id"] == row["site_id"]] for one row of the frame *)
Definition mask_row (sid : string) (r : MasterRow) : bool :=
  bool_decide (mr_site_id r = sid).

(** The data frame after the update: every row under the mask takes the
    new values where it stands ([df.loc[mask, MASTER_HEADERS] = ...]); with
    no row under the mask the new row goes to the end
    ([df.loc[len(df)] = ...]). *)
Definition upsert_row (row : MasterRow) (df : list MasterRow) : list MasterRow :=
  if existsb (mask_row (mr_site_id row)) df
  then map (λ r, if mask_row (mr_site_id row) r then row else r) df
  else df ++ [row].

Definition _record_master_index (capture : CaptureMap) (st : Store) : Store :=
  let row := master_row capture in
  let df := match master_index st with
            | Some df => upsert_row row df
            | None => [] ++ [row]
            end in
  write_master_index df st.

(** ** [_log_change_event] *)

(** The dictionary [event_row]. *)
Definition change_event (now : string) (previous current : CaptureMap)
    (change_types' : list ChangeType) : EventRow :=
  let names := map change_name change_types' in
  let details := join "; " (py_sorted String.leb names) in
  {| ev_timestamp := str_or (captured_at current) now;
     ev_site_id := site_id current;
     ev_level := "CHANGE";
     ev_change_type := join "," names;
     ev_dom_checksum_prev := opt_or_empty (dom_checksum previous);
     ev_dom_checksum_new := opt_or_empty (dom_checksum current);
     ev_form_signature_prev := opt_or_empty (form_signature previous);
     ev_form_signature_new := opt_or_empty (form_signature current);
     ev_resolved_url_prev := opt_or_empty (resolved_url previous);
     ev_resolved_url_new := opt_or_empty (resolved_url current);
     ev_details := details |}.

Definition _log_change_event (now : string) (previous current : CaptureMap)
    (change_types' : list ChangeType) (st : Store) : Store :=
  append_event (change_event now previous current change_types') st.

(** ** [_process_single_target] and [_run] *)

(** What the world answers while one target is processed: the fresh page
    of its browsing context and the two readings of the clock. *)
Record Env := {
  env_page : Page;
  env_now : string;
  env_now_event : string;
}.

(** The last statement of [_process_single_target]: in monitor mode and
    with a previous map, compare and log a change. *)
Definition diff_and_log (env : Env) (mode' : Mode)
    (previous_map : option CaptureMap) (capture : CaptureMap) (st : Store)
  : Store :=
  match mode', previous_map with
  | ModeMonitor, Some previous =>
      let diff := compare_maps previous capture in
      if changed diff
      then _log_change_event (env_now_event env) previous capture
                             (change_types diff) st
      else st
  | _, _ => st
  end.

Definition _process_single_target (timeout : N) (env : Env)
    (target : Target) (mode' : Mode) (st : Store) : Store :=
  let previous_map := _load_existing_map (t_site_id target) st in
  let '(st, capture) :=
    _capture_target timeout (env_page env) target mode' (env_now env) st in
  let st := _write_map_json (t_site_id target) capture st in
  let st := _record_master_index capture st in
  diff_and_log env mode' previous_map capture st.

(** The loop of [_run]: targets in order, at most [limit] of them. *)
Fixpoint run_loop (timeout : N) (mode' : Mode) (limit : option nat)
    (processed : nat) (targets : list (Target * Env)) (st : Store) : Store :=
  match targets with
  | [] => st
  | (target, env) :: rest =>
      match limit with
      | Some n =>
          if (n <=? processed)%nat then st
          else run_loop timeout mode' limit (S processed) rest
                 (_process_single_target timeout env target mode' st)
      | None =>
          run_loop timeout mode' limit (S processed) rest
            (_process_single_target timeout env target mode' st)
      end
  end.

Definition _run (timeout : N) (mode' : Mode) (targets : list (Target * Env))
    (limit : option nat) (st : Store) : Store :=
  run_loop timeout mode' limit 0 targets st.

(** ** The standalone script: [persist_map] *)

Record LegacyField := {
  lf_name : string;
  lf_type : string;
  lf_required : bool;
  lf_label : string;
  lf_placeholder : string;
  lf_selector : string;
}.

Record LegacyForm := {
  lform_selector : string;
  lform_action : string;
  lform_method : string;
  lform_fields : list LegacyField;
  lform_submit_buttons : list string;
  lform_captcha_present : bool;
  lform_steps_detected : nat;
}.

(** The dictionary [page_map] returned by [map_submission_page]. *)
Record PageMap := {
  pm_site_id : string;
  pm_url : string;
  pm_title : string;
  pm_forms : list LegacyForm;
  pm_hostname : string;
  pm_captured_at : string;
  pm_dom_sha256 : string;
  pm_screenshot_path : string;
}.

Record LegacyRow := {
  lr_site_id : string;
  lr_url : string;
  lr_title : string;
  lr_hostname : string;
  lr_dom_sha256 : string;
  lr_forms_count : nat;
  lr_fields_total : nat;
  lr_captcha_present : bool;
  lr_captured_at : string;
  lr_screenshot_path : string;
}.

(** The output directory of the standalone script: the [map.json] files
    and the rows of its [master_index.csv]. *)
Record LegacyStore := {
  legacy_maps : gmap string PageMap;
  legacy_index : list LegacyRow;
}.

Definition legacy_row (pm : PageMap) : LegacyRow :=
  {| lr_site_id := pm_site_id pm;
     lr_url := pm_url pm;
     lr_title := pm_title pm;
     lr_hostname := pm_hostname pm;
     lr_dom_sha256 := pm_dom_sha256 pm;
     lr_forms_count := length (pm_forms pm);
     lr_fields_total :=
       foldr (λ f n, (length (lform_fields f) + n)%nat) 0%nat (pm_forms pm);
     lr_captcha_present := existsb lform_captcha_present (pm_forms pm);
     lr_captured_at := pm_captured_at pm;
     lr_screenshot_path := pm_screenshot_path pm |}.

(** [persist_map]: the map is written over [map.json]; the index file is
    opened in append mode and the row written at its end. *)
Definition persist_map (pm : PageMap) (st : LegacyStore) : LegacyStore :=
  {| legacy_maps := <[pm_site_id pm := pm]> (legacy_maps st);
     legacy_index := legacy_index st ++ [legacy_row pm] |}.

(** ** The document and [toSelector] *)

(** An element of the rendered document: [nodeName], [id] (empty when the
    element has none), [classList] and the element children.  A node of
    the document is addressed by the child positions that lead to it from
    the root element; [parentElement] is the node one position shorter. *)
Inductive Element : Type :=
  Elem (nodeName : string) (el_id : string) (classList : list string)
       (children : list Element).

Definition nodeName (e : Element) : string :=
  match e with Elem n _ _ _ => n end.
Definition el_id (e : Element) : string :=
  match e with Elem _ i _ _ => i end.
Definition classList (e : Element) : list string :=
  match e with Elem _ _ c _ => c end.
Definition children (e : Element) : list Element :=
  match e with Elem _ _ _ ch => ch end.

Fixpoint locate (root : Element) (path : list nat) : option Element :=
  match path with
  | [] => Some root
  | i :: rest =>
      match children root !! i with
      | Some child => locate child rest
      | None => None
      end
  end.

(** [current.nodeName.toLowerCase()] followed by ['.' + classes.join('.')]
    when the class list is not empty. *)
Definition tag_with_classes (current : Element) : string :=
  lower (nodeName current)
  +:+ match classList current with
      | [] => ""
      | classes => "." +:+ join "." classes
      end.

(** [siblings]: the children of [parent] with the node name of [current];
    [siblings.indexOf(current)] for the child at position [i] is the number
    of such children before that position. *)
Definition same_tag (name : string) (child : Element) : bool :=
  bool_decide (nodeName child = name).

Definition nth_of_type (parent : Element) (i : nat) (current : Element)
  : string :=
  let siblings := filter (λ c, same_tag (nodeName current) c = true)
                         (children parent) in
  if (1 <? length siblings)%nat
  then
    let index :=
      S (length (filter (λ c, same_tag (nodeName current) c = true)
                        (take i (children parent)))) in
    ":nth-of-type(" +:+ str_of_nat index +:+ ")"
  else "".

(** The [while] loop of [toSelector].  [up] lists the child positions from
    [current] up to the root, [is_el] tells whether [current] is still
    [el]; each round puts its part in front of [parts] and moves to the
    parent. *)
Fixpoint selector_loop (root : Element) (up : list nat) (is_el : bool)
    (parts : list string) : option (list string) :=
  match locate root (rev up) with
  | None => None
  | Some current =>
      let part := tag_with_classes current in
      match up with
      | [] => Some (part :: parts)
      | i :: up' =>
          match locate root (rev up') with
          | None => None
          | Some parent =>
              let part :=
                if is_el then part
                else part +:+ nth_of_type parent i current in
              selector_loop root up' false (part :: parts)
          end
      end
  end.

(** [toSelector(el)] for the node at [path]; [None] is [null], returned
    when there is no such node. *)
Definition toSelector (root : Element) (path : list nat) : option string :=
  match locate root path with
  | None => None
  | Some el =>
      match el_id el with
      | String c i => Some (lower (nodeName el) +:+ "#" +:+ String c i)
      | EmptyString =>
          match selector_loop root (rev path) true [] with
          | Some parts => Some (join " > " parts)
          | None => None
          end
      end
  end.

(** The selector in the words of the specification: the chain from the
    document root down to the element; every part is the tag name with the
    joined class list; a proper ancestor that has a parent also gets its
    position among the same-tag children of that parent when there is more
    than one of them.  [above] is the parent of [node] and the position of
    [node] under it, [None] at the root. *)
Fixpoint chain_parts (above : option (Element * nat)) (node : Element)
    (path : list nat) : option (list string) :=
  match path with
  | [] => Some [tag_with_classes node]
  | i :: rest =>
      match children node !! i with
      | None => None
      | Some child =>
          match chain_parts (Some (node, i)) child rest with
          | None => None
          | Some below =>
              let position :=
                match above with
                | Some (parent, k) => nth_of_type parent k node
                | None => ""
                end in
              Some ((tag_with_classes node +:+ position) :: below)
          end
      end
  end.

(** A sample document: [html > body > (div, form.signup.wide, div)], the
    form holding an [input#email] and two buttons; [body] holds two
    [form] elements further down. *)
Definition sample_document : Element :=
  Elem "HTML" "" []
    [Elem "HEAD" "" [] [];
     Elem "BODY" "" ["home"]
       [Elem "DIV" "" [] [];
        Elem "FORM" "" ["signup"; "wide"]
          [Elem "INPUT" "email" [] [];
           Elem "BUTTON" "" ["btn"] [];
           Elem "BUTTON" "" [] []];
        Elem "DIV" "main" []
          [Elem "A" "" [] []];
        Elem "FORM" "" []
          [Elem "BUTTON" "" [] []]]].

(** The parts of the chain from [node] down [path] when the last node is
    numbered like the ancestors: what the loop of [toSelector] has put in
    front once it has left [el]. *)
Fixpoint indexed_parts (above : option (Element * nat)) (node : Element)
    (path : list nat) : option (list string) :=
  let position :=
    match above with
    | Some (parent, k) => nth_of_type parent k node
    | None => ""
    end in
  match path with
  | [] => Some [tag_with_classes node +:+ position]
  | i :: rest =>
      match children node !! i with
      | None => None
      | Some child =>
          match indexed_parts (Some (node, i)) child rest with
          | None => None
          | Some below => Some ((tag_with_classes node +:+ position) :: below)
          end
      end
  end.

(** Two submit buttons that both read "Next". *)
Definition two_next_buttons_form : FormDescriptor :=
  set_submitters [next_button; other_next_button] search_form.

Definition two_next_buttons_html : string :=
  "<html><body><form><button id=next>Next</button><button>Next</button></form></body></html>".

Global Instance ChangeType_eq_dec : EqDecision ChangeType.
Proof. solve_decision. Defined.

Global Instance Status_eq_dec : EqDecision Status.
Proof. solve_decision. Defined.

Global Instance Mode_eq_dec : EqDecision Mode.
Proof. solve_decision. Defined.

(** ** Sample runs *)

(** The target of the end-to-end scenario, a page that loads with the
    sign-up form, the same page once a captcha widget was added, and a
    page whose navigation times out. *)
Definition acme_target : Target :=
  {| t_site_id := sanitize_site_id "Acme Co!";
     t_homepage := "https://acme.test";
     t_submission_url := None;
     t_notes := "";
     t_raw_site_id := "Acme Co!" |}.

Definition acme_html : string :=
  "<html><body><form action=/signup method=post data-kind=signup></form></body></html>".

Definition acme_captcha_html : string :=
  "<html><body><form action=/signup method=post data-kind=signup><div class=g-recaptcha></div></form></body></html>".

Definition acme_page : Page :=
  {| page_goto := λ _, inr (Some 200%Z);
     page_url := "https://acme.test/";
     page_wait_for_timeout := None;
     page_content := inr acme_html;
     page_screenshot := None;
     page_evaluate := inr [signup_form];
     page_locator_count := λ _, inr 0%nat;
     page_elapsed_ms := 840%N |}.

Definition acme_captcha_page : Page :=
  {| page_goto := λ _, inr (Some 200%Z);
     page_url := "https://acme.test/";
     page_wait_for_timeout := None;
     page_content := inr acme_captcha_html;
     page_screenshot := None;
     page_evaluate := inr [signup_form];
     page_locator_count := λ _, inr 0%nat;
     page_elapsed_ms := 910%N |}.

Definition timeout_page : Page :=
  {| page_goto := λ _, inl (PlaywrightTimeoutError "Timeout 25000ms exceeded.");
     page_url := "about:blank";
     page_wait_for_timeout := None;
     page_content := inr "";
     page_screenshot := None;
     page_evaluate := inr [];
     page_locator_count := λ _, inr 0%nat;
     page_elapsed_ms := 25003%N |}.

Definition env_of (page : Page) (now : string) : Env :=
  {| env_page := page; env_now := now; env_now_event := now |}.

(** The output directory after a first run in map mode on the page that
    loads. *)
Definition store_after_baseline : Store :=
  _process_single_target 25000%N
    (env_of acme_page "2025-01-01T00:00:00+00:00") acme_target ModeMap
    empty_store.

(** The payload of a capture whose navigation timed out. *)
Definition timeout_capture : CaptureMap :=
  (_capture_target 25000%N timeout_page acme_target ModeMonitor
     "2025-01-02T00:00:00+00:00" store_after_baseline).2.

(** The two snapshots of the diff example: checksum [h1], signature [f1],
    no captcha, no multi-step hint, resolved at [u1]; and the same with a
    captcha. *)
Definition snapshot_with_captcha (captcha : bool) : CaptureMap :=
  payload_update "h1" "f1" [] 0 [] captcha {| likely := false; signals := [] |}
    (set_resolved_url (Some "u1")
       (initial_payload acme_target ModeMonitor "2025-01-03T00:00:00+00:00")).

Definition snapshot_A : CaptureMap := snapshot_with_captcha false.
Definition snapshot_B : CaptureMap := snapshot_with_captcha true.


(** Two captures of the same site by the standalone script. *)
Definition legacy_capture (captured : string) (sha : string) : PageMap :=
  {| pm_site_id := "acme-co";
     pm_url := "https://acme.test";
     pm_title := "Acme";
     pm_forms := [];
     pm_hostname := "acme.test";
     pm_captured_at := captured;
     pm_dom_sha256 := sha;
     pm_screenshot_path := "out/acme-co/sshot.png" |}.

Definition legacy_store_after_two : LegacyStore :=
  persist_map (legacy_capture "2025-01-02T00:00:00Z" "22")
    (persist_map (legacy_capture "2025-01-01T00:00:00Z" "11")
       {| legacy_maps := ∅; legacy_index := [] |}).

(** ** Further definitions *)

(** A character of a hexadecimal digest: [0-9a-f]. *)
Definition is_hex_char (c : ascii) : bool :=
  between 48 57 c || between 97 102 c.

(** The order in which [compare_maps] appends its tags. *)
Definition tag_order : list ChangeType := [DOM; FORMS; CAPTCHA; STEP_HINT; URL].

(** A page with no captcha marker in its HTML whose probes answer. *)
Definition plain_html : string := "<html><body><p>hello</p></body></html>".

(** The page [page] with another answer to [page.screenshot]. *)
Definition with_screenshot (r : option exn) (page : Page) : Page :=
  {| page_goto := page_goto page;
     page_url := page_url page;
     page_wait_for_timeout := page_wait_for_timeout page;
     page_content := page_content page;
     page_screenshot := r;
     page_evaluate := page_evaluate page;
     page_locator_count := page_locator_count page;
     page_elapsed_ms := page_elapsed_ms page |}.

(** A page that loads and whose extraction script raises. *)
Definition broken_script_page : Page :=
  {| page_goto := λ _, inr None;
     page_url := "https://acme.test/join";
     page_wait_for_timeout := None;
     page_content := inr plain_html;
     page_screenshot := Some (PlaywrightError "screenshot failed");
     page_evaluate := inl (PlaywrightError "Execution context was destroyed");
     page_locator_count := λ _, inr 0%nat;
     page_elapsed_ms := 1200%N |}.

(** A target with neither URL, and one for a second site. *)
Definition blank_target : Target :=
  {| t_site_id := "blank"; t_homepage := ""; t_submission_url := Some "";
     t_notes := "no url"; t_raw_site_id := "Blank" |}.

Definition other_target : Target :=
  {| t_site_id := "other"; t_homepage := "https://other.test";
     t_submission_url := Some "https://other.test/add";
     t_notes := ""; t_raw_site_id := "Other" |}.

(** The site ids of a list of targets. *)
Definition target_ids (targets : list (Target * Env)) : list string :=
  (λ te, t_site_id te.1) <$> targets.

(** A document with two plain buttons side by side. *)
Definition button_row_document : Element :=
  Elem "HTML" "" []
    [Elem "BODY" "" []
       [Elem "FORM" "" ["f"]
          [Elem "BUTTON" "" ["btn"] [];
           Elem "BUTTON" "" ["btn"] []]]].

(** ** The standalone script: [cssPath] *)

(** The inner [while (sib = sib.previousElementSibling)] loop: one more
    than the number of element siblings before position [i] whose
    lower-cased node name is [selector]. *)
Definition nth_among_previous (parent : Element) (i : nat) (selector : string)
  : nat :=
  S (length (filter (λ sib, lower (nodeName sib) = selector)
                    (take i (children parent)))).

(** The outer [while] loop of [cssPath]: an element with an id ends the
    walk ([break]); the root element has no previous sibling and its
    parent is the document, which ends the walk too. *)
Fixpoint cssPath_loop (root : Element) (up : list nat) (path : list string)
  : option (list string) :=
  match locate root (rev up) with
  | None => None
  | Some el =>
      let selector := lower (nodeName el) in
      match el_id el with
      | String c i => Some ((selector +:+ "#" +:+ String c i) :: path)
      | EmptyString =>
          match up with
          | [] => Some ((selector +:+ ":nth-of-type(" +:+ str_of_nat 1 +:+ ")")
                        :: path)
          | i :: up' =>
              match locate root (rev up') with
              | None => None
              | Some parent =>
                  let nth := nth_among_previous parent i selector in
                  cssPath_loop root up'
                    ((selector +:+ ":nth-of-type(" +:+ str_of_nat nth +:+ ")")
                     :: path)
              end
          end
      end
  end.

(** [cssPath(el)] for the element at [path]; [None] when there is no such
    element. *)
Definition cssPath (root : Element) (path : list nat) : option string :=
  match cssPath_loop root (rev path) [] with
  | Some parts => Some (join " > " parts)
  | None => None
  end.

(** ** [load_targets] and [main] *)

(** The characters [str.strip()] removes, below code point 256. *)
Definition py_whitespace : string :=
  string_of_list_ascii
    (map ascii_of_N [9; 10; 11; 12; 13; 28; 29; 30; 31; 32; 133; 160]%N).

(** [s.strip()] *)
Definition str_strip (s : string) : string := strip py_whitespace s.

(** One row of the frame read by [pandas.read_csv], with the four columns
    the loader reads.  A cell is [None] when [pd.isna] holds of it, else
    the text that [str] gives for its value. *)
Record CsvRow := {
  cell_site_id : option string;
  cell_homepage : option string;
  cell_submission_url : option string;
  cell_notes : option string;
}.

Record Frame := {
  frame_columns : list string;
  frame_rows : list CsvRow;
}.

Inductive LoadError :=
  | FileNotFoundError (msg : string)
  | ValueError (msg : string).

Definition required_columns : list string :=
  ["site_id"; "homepage"; "submission_url"; "notes"].

(** ["" if pd.isna(cell) else str(cell).strip()] *)
Definition cell_text (cell : option string) : string :=
  match cell with
  | Some s => str_strip s
  | None => ""
  end.

(** The body of [for idx, row in df.iterrows()], from the row labelled
    [idx] on: the first row without site id raises, and no target is
    returned then. *)
Fixpoint load_rows (idx : nat) (rows : list CsvRow) : LoadError + list Target :=
  match rows with
  | [] => inr []
  | row :: rest =>
      let raw_id := cell_text (cell_site_id row) in
      match raw_id with
      | EmptyString =>
          inl (ValueError ("Row " +:+ str_of_nat (idx + 1)
                           +:+ ": site_id is required"))
      | _ =>
          let target :=
            {| t_site_id := sanitize_site_id raw_id;
               t_homepage := cell_text (cell_homepage row);
               t_submission_url :=
                 match cell_text (cell_submission_url row) with
                 | EmptyString => None
                 | url => Some url
                 end;
               t_notes := cell_text (cell_notes row);
               t_raw_site_id := raw_id |} in
          match load_rows (S idx) rest with
          | inl e => inl e
          | inr targets => inr (target :: targets)
          end
      end
  end.

(** [load_targets]; [file] is [None] when the path does not exist. *)
Definition load_targets (path : string) (file : option Frame)
  : LoadError + list Target :=
  match file with
  | None => inl (FileNotFoundError ("Targets CSV not found: " +:+ path))
  | Some df =>
      let missing :=
        filter (λ c, c ∉ frame_columns df) required_columns in
      match missing with
      | [] => load_rows 0 (frame_rows df)
      | _ =>
          inl (ValueError ("Targets CSV missing required columns: "
                           +:+ join ", " (sorted_set missing)))
      end
  end.


(** A targets file with a row that has no site id after two good rows. *)
Definition blank_id_row : CsvRow :=
  {| cell_site_id := Some "   "; cell_homepage := Some "https://x.test";
     cell_submission_url := None; cell_notes := None |}.

Definition sample_frame : Frame :=
  {| frame_columns := ["site_id"; "homepage"; "submission_url"; "notes"];
     frame_rows :=
       [ {| cell_site_id := Some " Acme Co! "; cell_homepage := Some "https://acme.test";
            cell_submission_url := None; cell_notes := None |};
         {| cell_site_id := Some "Other"; cell_homepage := Some "https://other.test";
            cell_submission_url := Some " https://other.test/add";
            cell_notes := Some "paid" |};
         blank_id_row ] |}.

Definition good_frame : Frame :=
  {| frame_columns := frame_columns sample_frame;
     frame_rows := take 2 (frame_rows sample_frame) |}.

(** ** [normaliseText] of the extraction script *)

(** The characters below code point 256 that the class [\s] matches and
    [trim] removes: tab, line feed, vertical tab, form feed, carriage
    return, space and no-break space. *)
Definition js_whitespace : string :=
  string_of_list_ascii (map ascii_of_N [9; 10; 11; 12; 13; 32; 160]%N).

Definition is_js_space (c : ascii) : bool := char_in c js_whitespace.

(** [input.replace(/\s+/g, ' ')]: every maximal run of white space becomes
    one space; [in_run] tells that the run has already got its space. *)
Fixpoint collapse_spaces (in_run : bool) (s : string) : string :=
  match s with
  | EmptyString => EmptyString
  | String c t =>
      if is_js_space c
      then (if in_run then collapse_spaces true t
            else String " " (collapse_spaces true t))
      else String c (collapse_spaces false t)
  end.

(** [normaliseText] *)
Definition normaliseText (input : string) : string :=
  match input with
  | EmptyString => EmptyString
  | _ => strip js_whitespace (collapse_spaces false input)
  end.

(** The only white space of [s] is single spaces; with [after_space] the
    text may not start with white space. *)
Fixpoint single_spaced (after_space : bool) (s : string) : bool :=
  match s with
  | EmptyString => true
  | String c t =>
      if is_js_space c
      then Ascii.eqb c " " && negb after_space && single_spaced true t
      else single_spaced false t
  end.

(** ** The standalone script: [log_event], [monitor_once] and the loops of
    [main] *)

(** [json.encoder.py_encode_basestring_ascii] on one code point below 256:
    the escapes of [ESCAPE_DCT], and a [\u00xx] escape for every other
    character outside the range from the space to the tilde. *)
Definition escape_char_ascii (c : ascii) : string :=
  let n := code c in
  if ((32 <=? n) && (n <=? 126) && negb (n =? 34) && negb (n =? 92))%N
  then String c EmptyString
  else if (n <? 32)%N || (n =? 34)%N || (n =? 92)%N then escape_char c
  else backslash +:+ "u" +:+ Sha256.hex 4 n.

Fixpoint escape_ascii (s : string) : string :=
  match s with
  | EmptyString => EmptyString
  | String c t => escape_char_ascii c +:+ escape_ascii t
  end.

(** [json.dumps(v, sort_keys=..., ensure_ascii=...)] with the default
    separators. *)
Definition encode_string (ensure_ascii : bool) (s : string) : string :=
  dquote +:+ (if ensure_ascii then escape_ascii s else escape s) +:+ dquote.

Fixpoint json_dumps (sort_keys ensure_ascii : bool) (v : json) : string :=
  match v with
  | JNull => "null"
  | JBool true => "true"
  | JBool false => "false"
  | JInt z => str_of_Z z
  | JStr s => encode_string ensure_ascii s
  | JList l =>
      "[" +:+ join ", " (map (json_dumps sort_keys ensure_ascii) l) +:+ "]"
  | JDict items =>
      let members :=
        map (λ kv, (kv.1, json_dumps sort_keys ensure_ascii kv.2)) items in
      let members := if sort_keys then py_sorted key_leb members else members in
      "{" +:+ join ", "
            (map (λ kv, encode_string ensure_ascii kv.1 +:+ ": " +:+ kv.2)
                 members)
          +:+ "}"
  end.

(** One row of the [events.csv] of the standalone script. *)
Record LegacyEvent := {
  le_ts : string;
  le_site_id : string;
  le_level : string;
  le_message : string;
  le_extra : string;
}.

(** The output directory of the standalone script with its event log. *)
Record LegacyOut := {
  out_store : LegacyStore;
  out_events : list LegacyEvent;
}.

(** [log_event]; [extra] is [None] when the argument is left out, and an
    empty dictionary counts as left out ([extra or {}]). *)
Definition log_event (now sid level message : string) (extra : option json)
    (out : LegacyOut) : LegacyOut :=
  let extra_json := match extra with
                    | Some (JDict (item :: items)) => JDict (item :: items)
                    | Some (JDict []) | None => JDict []
                    | Some v => v
                    end in
  {| out_store := out_store out;
     out_events :=
       out_events out
       ++ [{| le_ts := now; le_site_id := sid; le_level := level;
              le_message := message;
              le_extra := json_dumps false false extra_json |}] |}.

(** [summarize] inside [monitor_once]. *)
Definition summarize_field (x : LegacyField) : json :=
  JDict [("name", JStr (lf_name x)); ("type", JStr (lf_type x));
         ("required", JBool (lf_required x)); ("label", JStr (lf_label x))].

Definition summarize_form (f : LegacyForm) : json :=
  JDict [("form_selector", JStr (lform_selector f));
         ("action", JStr (lform_action f));
         ("method", JStr (lform_method f));
         ("fields", JList (map summarize_field (lform_fields f)));
         ("captcha_present", JBool (lform_captcha_present f));
         ("steps_detected", JInt (Z.of_nat (lform_steps_detected f)))].

Definition summarize (forms' : list LegacyForm) : json :=
  JList (map summarize_form forms').

(** [to_hash] inside [monitor_once] *)
Definition to_hash (obj : json) : string :=
  Sha256.hexdigest (utf8_encode (json_dumps true true obj)).

(** What [map_submission_page] meets: an exception with its text, or the
    data read from the page.  The site id and the URL of the returned map
    are the arguments of the call. *)
Definition page_map_of (sid url : string) (data : PageMap) : PageMap :=
  {| pm_site_id := sid; pm_url := url; pm_title := pm_title data;
     pm_forms := pm_forms data; pm_hostname := pm_hostname data;
     pm_captured_at := pm_captured_at data;
     pm_dom_sha256 := pm_dom_sha256 data;
     pm_screenshot_path := pm_screenshot_path data |}.

Definition map_submission_page (sid url : string) (page : string + PageMap)
  : string + PageMap :=
  match page with
  | inl msg => inl msg
  | inr data => inr (page_map_of sid url data)
  end.

Definition persist (pm : PageMap) (out : LegacyOut) : LegacyOut :=
  {| out_store := persist_map pm (out_store out);
     out_events := out_events out |}.

(** [monitor_once]: [inl msg] when the call raises. *)
Definition monitor_once (now sid url : string) (page : string + PageMap)
    (out : LegacyOut) : string + LegacyOut :=
  match legacy_maps (out_store out) !! sid with
  | None =>
      match map_submission_page sid url page with
      | inl msg => inl msg
      | inr pm =>
          inr (log_event now sid "INFO" "Initial map created" None
                 (persist pm out))
      end
  | Some old =>
      match map_submission_page sid url page with
      | inl msg => inl msg
      | inr pm =>
          let out := persist pm out in
          let out :=
            if differs (pm_dom_sha256 pm) (pm_dom_sha256 old)
            then log_event now sid "CHANGE" "DOM hash changed"
                   (Some (JDict [("old", JStr (pm_dom_sha256 old));
                                 ("new", JStr (pm_dom_sha256 pm))])) out
            else out in
          let old_sum := summarize (pm_forms old) in
          let new_sum := summarize (pm_forms pm) in
          inr (if differs (to_hash old_sum) (to_hash new_sum)
               then log_event now sid "CHANGE" "Form structure changed"
                      (Some (JDict [("before", old_sum); ("after", new_sum)]))
                      out
               else out)
      end
  end.

(** The body of the monitor loop of [main]: an exception of
    [monitor_once] is logged as an error. *)
Definition monitor_target (now sid url : string) (page : string + PageMap)
    (out : LegacyOut) : LegacyOut :=
  match monitor_once now sid url page out with
  | inr out' => out'
  | inl msg =>
      log_event now sid "ERROR" "Monitor failed"
        (Some (JDict [("error", JStr msg); ("url", JStr url)])) out
  end.


Definition empty_out : LegacyOut :=
  {| out_store := {| legacy_maps := ∅; legacy_index := [] |};
     out_events := [] |}.

(** Page data for the standalone script: one form, and the same page with
    another DOM hash. *)
Definition legacy_form : LegacyForm :=
  {| lform_selector := "form:nth-of-type(1)"; lform_action := "/signup";
     lform_method := "POST";
     lform_fields := [{| lf_name := "email"; lf_type := "email";
                         lf_required := true; lf_label := "Email";
                         lf_placeholder := ""; lf_selector := "input#email" |}];
     lform_submit_buttons := ["button#go"];
     lform_captcha_present := false; lform_steps_detected := 0 |}.

Definition legacy_data (sha : string) : PageMap :=
  {| pm_site_id := ""; pm_url := ""; pm_title := "Acme";
     pm_forms := [legacy_form]; pm_hostname := "acme.test";
     pm_captured_at := "2025-01-01T00:00:00Z"; pm_dom_sha256 := sha;
     pm_screenshot_path := "out/acme-co/sshot.png" |}.

Definition out_after_first : LegacyOut :=
  monitor_target "t1" "acme-co" "https://acme.test" (inr (legacy_data "11"))
    empty_out.

(** ** The standalone script: the targets of [main] *)




(* ===================================================================== *)
(** * Part II: properties *)
(* ===================================================================== *)

(** ** Text primitives *)

Local Arguments Ascii.eqb : simpl never.

Lemma ascii_cases (P : ascii → Prop) :
  (∀ b0 b1 b2 b3 b4 b5 b6 b7, P (Ascii b0 b1 b2 b3 b4 b5 b6 b7)) → ∀ c, P c.
Proof. intros H [b0 b1 b2 b3 b4 b5 b6 b7]. apply H. Qed.

Ltac by_ascii_table :=
  let c := fresh "c" in
  intros c; pattern c; apply ascii_cases;
  intros [] [] [] [] [] [] [] []; vm_compute; intuition congruence.

Lemma sanitize_char_kept c : kept_char (sanitize_char (lower_char c)) = true.
Proof. revert c. by_ascii_table. Qed.

Lemma kept_char_lower c : kept_char c = true → lower_char c = c.
Proof. revert c. by_ascii_table. Qed.

Lemma kept_char_sanitize c : kept_char c = true → sanitize_char c = c.
Proof. revert c. by_ascii_table. Qed.

Lemma isalnum_lower c : isalnum (lower_char c) = isalnum c.
Proof. revert c. by_ascii_table. Qed.

Lemma sanitize_char_not_alnum c :
  isalnum c = false → char_in (sanitize_char c) "-_" = true.
Proof. revert c. by_ascii_table. Qed.

Lemma str_all_map_kept s :
  str_all kept_char (str_map sanitize_char (lower s)) = true.
Proof.
  unfold lower. induction s as [|c s IH]; simpl; [done|].
  by rewrite sanitize_char_kept, IH.
Qed.

Lemma str_map_kept_id s :
  str_all kept_char s = true → str_map sanitize_char (lower s) = s.
Proof.
  unfold lower. induction s as [|c s IH]; simpl; [done|].
  intros [Hc Hs]%andb_true_iff.
  rewrite (kept_char_lower c Hc), (kept_char_sanitize c Hc), (IH Hs). done.
Qed.

(** *** [lstrip], [rstrip], [strip] *)

Lemma lstrip_all P chars s :
  str_all P s = true → str_all P (lstrip chars s) = true.
Proof.
  induction s as [|c s IH]; simpl; [done|].
  intros H. destruct (char_in c chars); [|done].
  apply IH. by apply andb_true_iff in H as [_ ?].
Qed.

Lemma rstrip_all P chars s :
  str_all P s = true → str_all P (rstrip chars s) = true.
Proof.
  induction s as [|c s IH]; simpl; [done|].
  intros [Hc Hs]%andb_true_iff. specialize (IH Hs).
  destruct (rstrip chars s) as [|d t].
  - destruct (char_in c chars); simpl; [done|]. by rewrite Hc.
  - simpl in *. by rewrite Hc, IH.
Qed.

Lemma lstrip_head_ok chars s : head_ok chars (lstrip chars s) = true.
Proof.
  induction s as [|c s IH]; simpl; [done|].
  destruct (char_in c chars) eqn:E; [done|]. simpl. by rewrite E.
Qed.

Lemma rstrip_last_ok chars s : last_ok chars (rstrip chars s) = true.
Proof.
  induction s as [|c s IH]; simpl; [done|].
  destruct (rstrip chars s) as [|d t].
  - destruct (char_in c chars) eqn:E; simpl; [done|]. by rewrite E.
  - done.
Qed.

Lemma rstrip_head_ok chars s :
  head_ok chars s = true → head_ok chars (rstrip chars s) = true.
Proof.
  destruct s as [|c s]; simpl; [done|]. intros H.
  destruct (rstrip chars s); [|done].
  destruct (char_in c chars) eqn:E; [done|]. simpl. by rewrite E.
Qed.

Lemma lstrip_id chars s : head_ok chars s = true → lstrip chars s = s.
Proof.
  destruct s as [|c s]; simpl; [done|].
  by destruct (char_in c chars).
Qed.

Lemma rstrip_id chars s : last_ok chars s = true → rstrip chars s = s.
Proof.
  induction s as [|c s IH]; simpl; [done|].
  destruct s as [|d t].
  - simpl. by destruct (char_in c chars).
  - intros H. rewrite (IH H). done.
Qed.

Lemma lstrip_only chars s :
  str_all (λ c, char_in c chars) s = true → lstrip chars s = "".
Proof.
  induction s as [|c s IH]; simpl; [done|].
  intros [-> Hs]%andb_true_iff. auto.
Qed.

(** *** [replace("--", "-")] and the collapse loop *)

Lemma replace_dd_nil : replace "--" "-" "" = "".
Proof. done. Qed.

Lemma replace_dd_hit t :
  replace "--" "-" (String "-" (String "-" t)) = String "-" (replace "--" "-" t).
Proof. reflexivity. Qed.

Lemma replace_dd_miss c t :
  starts_with "--" (String c t) = false →
  replace "--" "-" (String c t) = String c (replace "--" "-" t).
Proof. unfold replace. cbn [replace_go]. by intros ->. Qed.

(** Induction along the scan of [replace("--", "-")]. *)
Lemma replace_dd_ind (P : string → string → Prop) :
  P "" "" →
  (∀ t r, P t r → P (String "-" (String "-" t)) (String "-" r)) →
  (∀ c t r, starts_with "--" (String c t) = false →
            P t r → P (String c t) (String c r)) →
  ∀ s, P s (replace "--" "-" s).
Proof.
  intros Hnil Hhit Hmiss s.
  cut (P s (replace "--" "-" s)
       ∧ ∀ c, P (String c s) (replace "--" "-" (String c s))); [tauto|].
  induction s as [|d t [IH1 IH2]].
  - assert (∀ c, starts_with "--" (String c "") = false) as E
      by (intros c; simpl; apply andb_false_r).
    split; [done|]. intros c. rewrite (replace_dd_miss _ _ (E c)).
    by apply Hmiss.
  - split; [apply IH2|]. intros c.
    destruct (starts_with "--" (String c (String d t))) eqn:E.
    + simpl in E. rewrite andb_true_r in E.
      apply andb_true_iff in E as [<-%Ascii.eqb_eq <-%Ascii.eqb_eq].
      rewrite replace_dd_hit. by apply Hhit.
    + rewrite (replace_dd_miss _ _ E). by apply Hmiss.
Qed.

Lemma contains_dd_cons c t :
  starts_with "--" (String c t) = false →
  contains "--" (String c t) = contains "--" t.
Proof. intros H. cbn [contains]. by rewrite H. Qed.

Lemma replace_dd_shorter s :
  (String.length (replace "--" "-" s) ≤ String.length s)%nat
  ∧ (contains "--" s = true →
     String.length (replace "--" "-" s) < String.length s).
Proof.
  apply (replace_dd_ind (λ s r,
    (String.length r ≤ String.length s)%nat
    ∧ (contains "--" s = true → String.length r < String.length s))).
  - split; [done|]. by vm_compute.
  - intros t r [Hle _]. simpl. split; intros; lia.
  - intros c t r E [Hle Hlt]. rewrite (contains_dd_cons _ _ E).
    simpl. split; [lia|]. intros H. specialize (Hlt H). lia.
Qed.

Lemma replace_dd_all P s :
  str_all P s = true → str_all P (replace "--" "-" s) = true.
Proof.
  apply (replace_dd_ind (λ s r, str_all P s = true → str_all P r = true)).
  - done.
  - intros t r IH. simpl. intros [Hc [_ Ht]%andb_true_iff]%andb_true_iff.
    by rewrite Hc, (IH Ht).
  - intros c t r _ IH. simpl. intros [Hc Ht]%andb_true_iff.
    by rewrite Hc, (IH Ht).
Qed.

Lemma replace_dd_head_ok s :
  head_ok "-_" s = true → head_ok "-_" (replace "--" "-" s) = true.
Proof.
  apply (replace_dd_ind (λ s r, head_ok "-_" s = true → head_ok "-_" r = true));
    done.
Qed.

Lemma replace_dd_last_ok s :
  (s = "" ↔ replace "--" "-" s = "")
  ∧ (last_ok "-_" s = true → last_ok "-_" (replace "--" "-" s) = true).
Proof.
  apply (replace_dd_ind (λ s r,
    (s = "" ↔ r = "") ∧ (last_ok "-_" s = true → last_ok "-_" r = true))).
  - done.
  - intros t r [Hnil IH]. split; [done|]. simpl.
    destruct t as [|d t], r as [|e r]; try done;
      destruct Hnil as [H1 H2];
      solve [by specialize (H1 eq_refl) | by specialize (H2 eq_refl)].
  - intros c t r _ [Hnil IH]. split; [done|]. simpl.
    destruct t as [|d t], r as [|e r]; try done;
      destruct Hnil as [H1 H2];
      solve [by specialize (H1 eq_refl) | by specialize (H2 eq_refl)].
Qed.

Lemma collapse_loop_inv (Q : string → Prop) fuel s :
  (∀ v, Q v → Q (replace "--" "-" v)) → Q s → Q (collapse_loop fuel s).
Proof.
  intros Hstep. revert s. induction fuel as [|fuel IH]; simpl; [done|].
  intros s Hs. destruct (contains "--" s); auto.
Qed.

(** The fuel handed to the loop is enough: on exit no ["--"] is left, which
    is the exit condition of the source's [while]. *)
Lemma collapse_loop_clean fuel s :
  (String.length s ≤ fuel)%nat → contains "--" (collapse_loop fuel s) = false.
Proof.
  revert s. induction fuel as [|fuel IH]; simpl; intros s Hlen.
  - destruct s; [done|simpl in Hlen; lia].
  - destruct (contains "--" s) eqn:E; [|done].
    apply IH. pose proof (replace_dd_shorter s) as [_ Hlt].
    specialize (Hlt E). lia.
Qed.

Lemma collapse_dashes_clean s : contains "--" (collapse_dashes s) = false.
Proof. by apply collapse_loop_clean. Qed.

Lemma collapse_dashes_id s : contains "--" s = false → collapse_dashes s = s.
Proof.
  unfold collapse_dashes. destruct (String.length s); simpl; [done|].
  by intros ->.
Qed.

(** ** [sanitize_site_id] *)

Example sanitize_acme : sanitize_site_id "Acme Co!" = "acme-co".
Proof. reflexivity. Qed.

(** What the three rewriting stages leave: either nothing, or a string
    that every stage maps to itself. *)
Lemma sanitize_stages_clean raw :
  let value := collapse_dashes (strip "-_" (str_map sanitize_char (lower raw))) in
  value = "" ∨ clean_id value = true.
Proof.
  intros value. destruct value as [|c v] eqn:E; [by left|right].
  rewrite <- E. unfold clean_id, value.
  set (m := str_map sanitize_char (lower raw)).
  assert (str_all kept_char (strip "-_" m) = true) as Hall
    by (apply rstrip_all, lstrip_all, str_all_map_kept).
  assert (head_ok "-_" (strip "-_" m) = true) as Hhd
    by (apply rstrip_head_ok, lstrip_head_ok).
  assert (last_ok "-_" (strip "-_" m) = true) as Hlast
    by apply rstrip_last_ok.
  rewrite collapse_dashes_clean. simpl.
  repeat (apply andb_true_iff; split); try done.
  - apply (collapse_loop_inv (λ v, str_all kept_char v = true));
      [apply replace_dd_all|done].
  - apply (collapse_loop_inv (λ v, head_ok "-_" v = true));
      [apply replace_dd_head_ok|done].
  - apply (collapse_loop_inv (λ v, last_ok "-_" v = true));
      [intros v0; apply replace_dd_last_ok|done].
  - unfold value in E. fold m in E. by rewrite E.
Qed.

Lemma sanitize_clean_id s : clean_id s = true → sanitize_site_id s = s.
Proof.
  unfold clean_id.
  intros [[[[Hall Hhd]%andb_true_iff Hlast]%andb_true_iff
            Hdd%negb_true_iff]%andb_true_iff Hne]%andb_true_iff.
  unfold sanitize_site_id, strip.
  rewrite (str_map_kept_id _ Hall), (lstrip_id _ _ Hhd), (rstrip_id _ _ Hlast).
  rewrite (collapse_dashes_id _ Hdd). by destruct s.
Qed.

(** C5. [sanitize_site_id] is idempotent: sanitizing a sanitized identifier
    changes nothing, for every raw identifier; and ["Acme Co!"] is
    sanitized to ["acme-co"]. *)
Theorem sanitize_site_id_idempotent :
  (∀ raw : string,
      sanitize_site_id (sanitize_site_id raw) = sanitize_site_id raw)
  ∧ sanitize_site_id "Acme Co!" = "acme-co".
Proof.
  split; [|reflexivity]. intros raw. apply sanitize_clean_id.
  unfold sanitize_site_id.
  destruct (sanitize_stages_clean raw) as [-> | H]; [done|].
  destruct (collapse_dashes _); done.
Qed.

(** C10. [sanitize_site_id] never returns the empty string; a raw
    identifier none of whose characters is alphanumeric (so that only
    [-] and [_] are left, and stripped) is sent to the fallback ["site"];
    ["!!!"] and ["???"] therefore get the same site id. *)
Theorem sanitize_site_id_fallback :
  (∀ raw : string, sanitize_site_id raw ≠ "")
  ∧ (∀ raw : string,
        str_all (λ ch, negb (isalnum ch)) raw = true →
        sanitize_site_id raw = "site")
  ∧ sanitize_site_id "!!!" = "site"
  ∧ sanitize_site_id "???" = sanitize_site_id "!!!".
Proof.
  split; [|split; [|split; reflexivity]].
  - intros raw. unfold sanitize_site_id.
    destruct (collapse_dashes _); done.
  - intros raw H. unfold sanitize_site_id, strip.
    rewrite lstrip_only; [done|]. unfold lower.
    induction raw as [|c raw IH]; [done|].
    cbn [str_all str_map] in *.
    apply andb_true_iff in H as [Hc%negb_true_iff Hraw].
    rewrite sanitize_char_not_alnum, (IH Hraw); [done|].
    by rewrite isalnum_lower.
Qed.

Lemma sanitize_site_id_fallback_witness :
  str_all (λ ch, negb (isalnum ch)) "?! -_" = true
  ∧ sanitize_site_id "?! -_" = "site".
Proof.
  split; [reflexivity|].
  apply (proj1 (proj2 sanitize_site_id_fallback)). reflexivity.
Defined.

(** ** [sha256_text] *)

(** The FIPS 180-4 test vectors, and a two-block message with a character
    above 127. *)
Example sha256_text_empty :
  sha256_text "" = "e3b0c44298fc1c149afbf4c8996fb92427ae41e4649b934ca495991b7852b855".
Proof. vm_compute. reflexivity. Qed.

Example sha256_text_abc :
  sha256_text "abc" = "ba7816bf8f01cfea414140de5dae2223b00361a396177a9cb410ff61f20015ad".
Proof. vm_compute. reflexivity. Qed.

(** ** Sorting *)

Section Sorting.
Context {A : Type} (le : A → A → bool).
Hypothesis le_total : ∀ x y, le x y = true ∨ le y x = true.

Lemma insert_sorted_perm x l : insert_sorted le x l ≡ₚ x :: l.
Proof.
  induction l as [|y l IH]; simpl; [done|].
  destruct (le x y); [done|]. rewrite IH. apply Permutation_swap.
Qed.

Lemma py_sorted_perm l : py_sorted le l ≡ₚ l.
Proof.
  induction l as [|x l IH]; simpl; [done|].
  by rewrite insert_sorted_perm, IH.
Qed.

Lemma insert_sorted_Sorted x l :
  Sorted (λ a b, le a b = true) l →
  Sorted (λ a b, le a b = true) (insert_sorted le x l).
Proof.
  induction l as [|y l IH]; simpl; intros Hs.
  - by repeat constructor.
  - destruct (le x y) eqn:E.
    + constructor; [done|]. by constructor.
    + apply Sorted_inv in Hs as [Hs Hhd]. constructor; [by apply IH|].
      destruct l as [|z l]; simpl.
      * constructor. by destruct (le_total x y) as [?|?]; [congruence|].
      * apply HdRel_inv in Hhd.
        destruct (le x z); constructor; [|done].
        by destruct (le_total x y) as [?|?]; [congruence|].
Qed.

Lemma py_sorted_Sorted l : Sorted (λ a b, le a b = true) (py_sorted le l).
Proof.
  induction l as [|x l IH]; simpl; [constructor|].
  by apply insert_sorted_Sorted.
Qed.
End Sorting.

Lemma string_leb_total (s1 s2 : string) :
  String.leb s1 s2 = true ∨ String.leb s2 s1 = true.
Proof. apply String.leb_total. Qed.

Lemma string_leb_trans (s1 s2 s3 : string) :
  String.leb s1 s2 = true → String.leb s2 s3 = true → String.leb s1 s3 = true.
Proof.
  intros H1%Is_true_true H2%Is_true_true. apply Is_true_true.
  exact (transitivity (R := String.le) H1 H2).
Qed.

(** [sort_keys] only looks at the keys: serialising the values before or
    after the sort gives the same list. *)
Lemma insert_sorted_key_map {A B} (f : A → B) (x : string * A) l :
  insert_sorted key_leb (x.1, f x.2) (map (λ kv, (kv.1, f kv.2)) l)
  = map (λ kv, (kv.1, f kv.2)) (insert_sorted key_leb x l).
Proof.
  induction l as [|y l IH]; simpl; [done|].
  unfold key_leb at 1 3. simpl. destruct (String.leb x.1 y.1); simpl; [done|].
  by rewrite IH.
Qed.

Lemma py_sorted_key_map {A B} (f : A → B) (l : list (string * A)) :
  py_sorted key_leb (map (λ kv, (kv.1, f kv.2)) l)
  = map (λ kv, (kv.1, f kv.2)) (py_sorted key_leb l).
Proof.
  induction l as [|x l IH]; simpl; [done|].
  by rewrite IH, insert_sorted_key_map.
Qed.

Lemma NoDup_fst_lookup {A} (l : list (string * A)) a b :
  NoDup (l.*1) → a ∈ l → b ∈ l → a.1 = b.1 → a = b.
Proof.
  induction l as [|x l IH]; simpl; intros Hnd Ha Hb Hk.
  - by apply elem_of_nil in Ha.
  - apply NoDup_cons in Hnd as [Hx Hnd].
    apply elem_of_cons in Ha as [->|Ha]; apply elem_of_cons in Hb as [->|Hb].
    + done.
    + exfalso. apply Hx. rewrite Hk. by apply list_elem_of_fmap_2.
    + exfalso. apply Hx. rewrite <- Hk. by apply list_elem_of_fmap_2.
    + by apply IH.
Qed.

(** The items of a dictionary sort to the same list whatever their
    insertion order. *)
Lemma py_sorted_items_perm {A} (l1 l2 : list (string * A)) :
  NoDup (l1.*1) → l1 ≡ₚ l2 →
  py_sorted key_leb l1 = py_sorted key_leb l2.
Proof.
  intros Hnd Hperm.
  assert (∀ x y : string * A, key_leb x y = true ∨ key_leb y x = true) as Htot
    by (intros x y; apply string_leb_total).
  assert (Transitive (λ a b : string * A, key_leb a b = true)) as Htrans
    by (intros x y z; apply string_leb_trans).
  apply (Sorted_unique_strong (λ a b, key_leb a b = true)).
  - intros a b Ha Hb Hab Hba.
    rewrite (py_sorted_perm key_leb l1) in Ha.
    rewrite (py_sorted_perm key_leb l2), <- Hperm in Hb.
    apply (NoDup_fst_lookup l1); [done..|].
    by apply String.leb_antisym.
  - by apply py_sorted_Sorted.
  - by apply py_sorted_Sorted.
  - by rewrite !py_sorted_perm.
Qed.

(** ** JSON serialisation and [compute_form_signature] *)

Lemma json_ind_nested (P : json → Prop) :
  P JNull → (∀ b, P (JBool b)) → (∀ z, P (JInt z)) → (∀ s, P (JStr s)) →
  (∀ l, Forall P l → P (JList l)) →
  (∀ items, Forall (λ kv, P kv.2) items → P (JDict items)) →
  ∀ v, P v.
Proof.
  intros Hnull Hbool Hint Hstr Hlist Hdict.
  fix IH 1. intros v. destruct v as [ | b | z | s | l | items].
  - exact Hnull.
  - apply Hbool.
  - apply Hint.
  - apply Hstr.
  - apply Hlist. induction l as [|v l IHl]; constructor; [apply IH|exact IHl].
  - apply Hdict.
    induction items as [|[k v] items IHl]; constructor; [apply IH|exact IHl].
Qed.

Lemma same_data_refl v : distinct_keys v = true → same_data v v.
Proof.
  induction v as [ | | | | l IH | items IH] using json_ind_nested;
    simpl; intros Hwf; try constructor.
  - induction IH as [|x l Hx _ IHl]; [constructor|].
    simpl in Hwf. apply andb_true_iff in Hwf as [? ?]. constructor; auto.
  - apply andb_true_iff in Hwf as [Hnd%bool_decide_eq_true Hwf].
    apply (same_dict items items items); [done| |done].
    clear Hnd. induction IH as [|x l Hx _ IHl]; [constructor|].
    simpl in Hwf. apply andb_true_iff in Hwf as [? ?]. constructor; auto.
Qed.

(** Equal data serialise to the same text: the canonical form does not see
    the insertion order of keys. *)
Lemma dumps_same_data v1 v2 : same_data v1 v2 → dumps v1 = dumps v2.
Proof.
  revert v2.
  induction v1 as [ | | | | l IH | items IH] using json_ind_nested;
    intros v2 Hsame;
    inversion Hsame as [ | | | | l1 l2 HF | i1 i2 items0 Hnd HF Hperm];
    subst; try done; clear Hsame.
  - simpl. do 3 f_equal.
    induction HF as [|x y l l' Hxy _ IHl]; [done|].
    apply Forall_cons in IH as [IHx IH]. simpl. f_equal; auto.
  - simpl. do 4 f_equal.
    assert (map (λ kv, (kv.1, dumps kv.2)) items
            = map (λ kv, (kv.1, dumps kv.2)) items0) as ->.
    { clear Hperm Hnd.
      induction HF as [|[k x] [k' y] l l' [Hk Hxy] _ IHl]; [done|].
      apply Forall_cons in IH as [IHx IH]. simpl in *. subst k'.
      f_equal; [|auto]. f_equal. auto. }
    assert (items0.*1 = items.*1) as Hkeys.
    { clear Hperm Hnd IH.
      induction HF as [|x y l l' [Hk _] _ IHl]; [done|].
      rewrite !fmap_cons. by rewrite Hk, IHl. }
    apply py_sorted_items_perm; [|by apply fmap_Permutation].
    rewrite <- list_fmap_compose. by rewrite <- Hkeys in Hnd.
Qed.

(** C3. Two forms lists that are equal as data, whatever the insertion
    order of the keys of their objects, get the same signature; and the
    order of the forms array, of a fields array and of a submitters array
    is part of the canonical text: swapping two elements changes the
    signature of the sample forms. *)
Theorem form_signature_key_order :
  (∀ forms1 forms2 : list json,
      Forall2 same_data forms1 forms2 →
      compute_form_signature forms1 = compute_form_signature forms2)
  ∧ compute_form_signature (map form_json [signup_form; search_form])
    ≠ compute_form_signature (map form_json [search_form; signup_form])
  ∧ compute_form_signature
      [form_json (set_fields [email_field; name_field] signup_form)]
    ≠ compute_form_signature
        [form_json (set_fields [name_field; email_field] signup_form)]
  ∧ compute_form_signature
      [form_json (set_submitters [next_button; back_button] signup_form)]
    ≠ compute_form_signature
        [form_json (set_submitters [back_button; next_button] signup_form)].
Proof.
  split; [|repeat split; apply String.eqb_neq; vm_compute; reflexivity].
  intros forms1 forms2 HF. unfold compute_form_signature. f_equal.
  apply dumps_same_data. by constructor.
Qed.

Lemma form_signature_key_order_witness :
  Forall2 same_data [form_json signup_form] [signup_form_reordered]
  ∧ compute_form_signature [form_json signup_form]
    = compute_form_signature [signup_form_reordered].
Proof.
  assert (Forall2 same_data [form_json signup_form] [signup_form_reordered]) as H.
  { constructor; [|constructor].
    apply (same_dict _ _
      [("index", JInt 0); ("action", JStr "/signup"); ("method", JStr "post");
       ("dataset", JDict [("origin", JStr "footer"); ("kind", JStr "signup")]);
       ("fields", JList (map field_json [email_field; name_field]));
       ("submitters", JList (map submit_json [next_button; back_button]))]).
    - apply (bool_decide_eq_true_1 _). vm_compute. reflexivity.
    - repeat (constructor; [split; [reflexivity|]|]);
        try (apply same_data_refl; vm_compute; reflexivity); [|constructor].
      apply (same_dict _ _ [("kind", JStr "signup"); ("origin", JStr "footer")]).
      + apply (bool_decide_eq_true_1 _). vm_compute. reflexivity.
      + repeat constructor.
      + apply Permutation_swap.
    - apply (reverse_Permutation
        [("submitters", JList (map submit_json [next_button; back_button]));
         ("fields", JList (map field_json [email_field; name_field]));
         ("dataset", JDict [("origin", JStr "footer"); ("kind", JStr "signup")]);
         ("method", JStr "post"); ("action", JStr "/signup");
         ("index", JInt 0)]). }
  split; [exact H|].
  exact (proj1 form_signature_key_order _ _ H).
Defined.

(** ** [toSelector] *)

Lemma append_empty_r (s : string) : s +:+ "" = s.
Proof.
  induction s as [|c s IH]; [done|].
  change (String c s +:+ "") with (String c (s +:+ "")). by rewrite IH.
Qed.

Lemma locate_snoc root p i :
  locate root (p ++ [i])
  = match locate root p with
    | Some parent => children parent !! i
    | None => None
    end.
Proof.
  revert root. induction p as [|j p IH]; intros root; simpl.
  - by destruct (children root !! i).
  - destruct (children root !! j); [apply IH|done].
Qed.

Lemma indexed_parts_snoc above node p i :
  indexed_parts above node (p ++ [i])
  = match indexed_parts above node p, locate node p with
    | Some ps, Some parent =>
        match children parent !! i with
        | Some current =>
            Some (ps ++ [tag_with_classes current
                         +:+ nth_of_type parent i current])
        | None => None
        end
    | _, _ => None
    end.
Proof.
  revert above node. induction p as [|j p IH]; intros above node; simpl.
  - by destruct (children node !! i).
  - destruct (children node !! j) as [child|]; [|done].
    rewrite IH. destruct (indexed_parts _ child p); [|done].
    destruct (locate child p) as [parent|]; [|done].
    by destruct (children parent !! i).
Qed.

Lemma chain_parts_snoc above node p i :
  chain_parts above node (p ++ [i])
  = match indexed_parts above node p, locate node p with
    | Some ps, Some parent =>
        match children parent !! i with
        | Some current => Some (ps ++ [tag_with_classes current])
        | None => None
        end
    | _, _ => None
    end.
Proof.
  revert above node. induction p as [|j p IH]; intros above node; simpl.
  - destruct (children node !! i); [|done].
    destruct above as [[parent k]|]; [done|]. by rewrite append_empty_r.
  - destruct (children node !! j) as [child|]; [|done].
    rewrite IH. destruct (indexed_parts _ child p); [|done].
    destruct (locate child p) as [parent|]; [|done].
    by destruct (children parent !! i).
Qed.

Lemma indexed_parts_located above node p :
  is_Some (locate node p) → is_Some (indexed_parts above node p).
Proof.
  revert above node. induction p as [|j p IH]; intros above node; simpl.
  - by eexists.
  - destruct (children node !! j) as [child|]; [|by intros [? ?]].
    intros H. destruct (IH (Some (node, j)) child H) as [ps ->]. by eexists.
Qed.

(** Once the loop has left [el], it puts the numbered parts of the
    remaining ancestors in front of what it has. *)
Lemma selector_loop_ancestors root up parts :
  selector_loop root up false parts
  = match indexed_parts None root (rev up) with
    | Some ps => Some (ps ++ parts)
    | None => None
    end.
Proof.
  revert parts. induction up as [|i up IH]; intros parts.
  - simpl. by rewrite append_empty_r.
  - cbn [selector_loop rev]. rewrite locate_snoc, indexed_parts_snoc.
    destruct (locate root (rev up)) as [parent|] eqn:Hp.
    + destruct (children parent !! i) as [current|];
        [|by destruct (indexed_parts None root (rev up))].
      rewrite IH. destruct (indexed_parts None root (rev up)); [|done].
      by rewrite <- app_assoc.
    + by destruct (indexed_parts None root (rev up)).
Qed.

Lemma selector_loop_chain root path :
  selector_loop root (rev path) true [] = chain_parts None root path.
Proof.
  destruct path as [|i p _] using rev_ind.
  - simpl. done.
  - rewrite rev_unit. cbn [selector_loop rev]. rewrite rev_involutive.
    rewrite locate_snoc, chain_parts_snoc.
    destruct (locate root p) as [parent|] eqn:Hp.
    + destruct (children parent !! i) as [current|];
        [|by destruct (indexed_parts None root p)].
      rewrite selector_loop_ancestors, rev_involutive.
      by destruct (indexed_parts None root p).
    + by destruct (indexed_parts None root p).
Qed.

Lemma chain_parts_located above node p :
  is_Some (locate node p) → is_Some (chain_parts above node p).
Proof.
  revert above node. induction p as [|j p IH]; intros above node; simpl.
  - by eexists.
  - destruct (children node !! j) as [child|]; [|by intros [? ?]].
    intros H. destruct (IH (Some (node, j)) child H) as [ps ->]. by eexists.
Qed.

(** C9. For the element [el] at [path] in the document: with an id the
    selector is [tag#id], whatever the ancestors; without one it is the
    chain of parts from the document root down to the element, joined by
    [" > "], each part the tag name with its joined class list, a position
    among the same-tag children of the parent being appended to an
    ancestor only when the parent has more than one such child.  The
    selector is a function of the document tree and the position of the
    element alone. *)
Theorem toSelector_chain (root : Element) (path : list nat) (el : Element) :
  locate root path = Some el →
  (el_id el ≠ "" →
   toSelector root path = Some (lower (nodeName el) +:+ "#" +:+ el_id el))
  ∧ (el_id el = "" →
     ∃ parts, chain_parts None root path = Some parts
              ∧ toSelector root path = Some (join " > " parts))
  ∧ (∀ parent i current,
        nth_of_type parent i current ≠ "" →
        (1 < length (filter (λ c, same_tag (nodeName current) c = true)
                            (children parent)))%nat).
Proof.
  intros Hel. unfold toSelector. rewrite Hel. repeat split.
  - by destruct (el_id el).
  - intros ->. rewrite selector_loop_chain.
    destruct (chain_parts_located None root path) as [parts Hparts];
      [by rewrite Hel|].
    rewrite Hparts. by exists parts.
  - intros parent i current. unfold nth_of_type.
    destruct (1 <? _)%nat eqn:E; [|done]. intros _. by apply Nat.ltb_lt.
Qed.

Lemma toSelector_chain_witness :
  locate sample_document [1; 3; 0] = Some (Elem "BUTTON" "" [] [])
  ∧ toSelector sample_document [1; 3; 0]
    = Some "html > body.home > form:nth-of-type(2) > button"
  ∧ toSelector sample_document [1; 1; 0] = Some "input#email".
Proof.
  split; [reflexivity|]. split.
  - destruct (toSelector_chain sample_document [1; 3; 0] _ eq_refl)
      as (_ & H & _).
    destruct (H eq_refl) as (parts & Hparts & ->).
    vm_compute in Hparts. by injection Hparts as <-.
  - by destruct (toSelector_chain sample_document [1; 1; 0] _ eq_refl)
      as (-> & _); [|vm_compute].
Defined.

(** ** [infer_multi_step] *)

Lemma sorted_set_perm l : sorted_set l ≡ₚ remove_dups l.
Proof. apply py_sorted_perm. Qed.

Lemma sorted_set_NoDup l : NoDup (sorted_set l).
Proof. rewrite sorted_set_perm. apply NoDup_remove_dups. Qed.

Lemma sorted_set_elem_of l s : s ∈ sorted_set l ↔ s ∈ l.
Proof. rewrite sorted_set_perm. apply elem_of_remove_dups. Qed.

Lemma sorted_set_Sorted l :
  Sorted (λ a b, String.leb a b = true) (sorted_set l).
Proof. apply py_sorted_Sorted, string_leb_total. Qed.

(** The sorted list depends on the set of collected signals only, not on
    the order in which they were met nor on how often. *)
Lemma sorted_set_ext l1 l2 :
  (∀ s, s ∈ l1 ↔ s ∈ l2) → sorted_set l1 = sorted_set l2.
Proof.
  intros Hext.
  assert (Transitive (λ a b : string, String.leb a b = true)) as Htrans
    by (intros x y z; apply string_leb_trans).
  apply (Sorted_unique_strong (λ a b, String.leb a b = true)).
  - intros a b _ _. apply String.leb_antisym.
  - apply sorted_set_Sorted.
  - apply sorted_set_Sorted.
  - rewrite !sorted_set_perm.
    apply NoDup_Permutation; [apply NoDup_remove_dups..|].
    intros s. by rewrite !elem_of_remove_dups.
Qed.

(** C4. Whatever the forms and the rendered HTML, the signal list of
    [infer_multi_step] has no duplicate, is sorted in the lexicographic
    order of code points, holds exactly the signals collected, and
    [likely] is true exactly when it is not empty; the list depends on the
    set of collected signals only; and two submit buttons reading "Next"
    give the signal [submit-text:next] once. *)
Theorem infer_multi_step_signals :
  (∀ (forms' : list FormDescriptor) (dom_html : string),
      let r := infer_multi_step forms' dom_html in
      NoDup (signals r)
      ∧ Sorted (λ a b, String.leb a b = true) (signals r)
      ∧ (∀ s, s ∈ signals r ↔ s ∈ collected_signals forms' dom_html)
      ∧ (likely r = true ↔ signals r ≠ []))
  ∧ (∀ l1 l2 : list string,
        (∀ s, s ∈ l1 ↔ s ∈ l2) → sorted_set l1 = sorted_set l2)
  ∧ collected_signals [two_next_buttons_form] two_next_buttons_html
    = ["submit-text:next"; "submit-text:next"]
  ∧ infer_multi_step [two_next_buttons_form] two_next_buttons_html
    = {| likely := true; signals := ["submit-text:next"] |}.
Proof.
  split; [|split; [apply sorted_set_ext|split; vm_compute; reflexivity]].
  intros forms' dom_html. simpl.
  split; [apply sorted_set_NoDup|]. split; [apply sorted_set_Sorted|].
  split; [intros s; apply sorted_set_elem_of|]. split.
  - intros H%negb_true_iff. by apply bool_decide_eq_false in H.
  - intros H. apply negb_true_iff. by apply bool_decide_eq_false.
Qed.

Lemma infer_multi_step_signals_witness :
  (∀ s, s ∈ ["b"; "a"; "b"] ↔ s ∈ ["a"; "b"])
  ∧ sorted_set ["b"; "a"; "b"] = sorted_set ["a"; "b"].
Proof.
  assert (∀ s : string, s ∈ ["b"; "a"; "b"] ↔ s ∈ ["a"; "b"]) as H
    by (intros s; rewrite !elem_of_cons, !elem_of_nil; tauto).
  split; [exact H|].
  exact (proj1 (proj2 infer_multi_step_signals) _ _ H).
Defined.

(** ** [compare_maps] *)

Lemma differs_true {A} `{EqDecision A} (a b : A) : differs a b = true ↔ a ≠ b.
Proof.
  unfold differs. rewrite negb_true_iff, bool_decide_eq_false. done.
Qed.

Lemma differs_false {A} `{EqDecision A} (a b : A) : differs a b = false ↔ a = b.
Proof.
  unfold differs. rewrite negb_false_iff, bool_decide_eq_true. done.
Qed.

Lemma differs_reflect {A} `{EqDecision A} (a b : A) :
  reflect (a ≠ b) (differs a b).
Proof.
  destruct (differs a b) eqn:E; constructor.
  - by apply (proj1 (differs_true a b)).
  - apply (proj1 (differs_false a b)) in E. intros Hne. by apply Hne.
Qed.

Lemma opt_or_empty_differs (a b : option string) :
  opt_or_empty a ≠ opt_or_empty b → a ≠ b.
Proof. intros H ->. by apply H. Qed.

(** C1, as the code has it.  An absent [resolved_url] and an empty one are
    the same to [compare_maps]: the claim fails on that pair. *)
Lemma compare_maps_url_counterexample :
  let previous := timeout_capture in
  let current := set_resolved_url (Some "") timeout_capture in
  resolved_url previous ≠ resolved_url current
  ∧ compare_maps previous current = {| changed := false; change_types := [] |}.
Proof. split; [vm_compute; discriminate|vm_compute; reflexivity]. Qed.

(** Each tag stands for its own comparison, whatever the other four
    give. *)
Lemma compare_maps_each_tag (previous current : CaptureMap) :
  let d := compare_maps previous current in
  NoDup (change_types d)
  ∧ (DOM ∈ change_types d ↔ dom_checksum previous ≠ dom_checksum current)
  ∧ (FORMS ∈ change_types d
     ↔ form_signature previous ≠ form_signature current)
  ∧ (CAPTCHA ∈ change_types d ↔ has_captcha previous ≠ has_captcha current)
  ∧ (STEP_HINT ∈ change_types d
     ↔ likely_multi_step previous ≠ likely_multi_step current)
  ∧ (URL ∈ change_types d
     ↔ opt_or_empty (resolved_url previous)
       ≠ opt_or_empty (resolved_url current))
  ∧ (changed d = true ↔ change_types d ≠ []).
Proof.
  unfold compare_maps. cbn [change_types changed].
  destruct (differs_reflect (dom_checksum previous) (dom_checksum current));
  destruct (differs_reflect (form_signature previous)
                            (form_signature current));
  destruct (differs_reflect (has_captcha previous) (has_captcha current));
  destruct (differs_reflect (likely_multi_step previous)
                            (likely_multi_step current));
  destruct (differs_reflect (opt_or_empty (resolved_url previous))
                            (opt_or_empty (resolved_url current)));
  cbn [app];
  (split; [apply (bool_decide_unpack _); vm_compute; exact I|]);
  repeat split; intros; try done;
  repeat match goal with
         | H : _ ∈ _ :: _ |- _ => apply elem_of_cons in H as [H|H]
         | H : _ ∈ [] |- _ => by apply elem_of_nil in H
         end;
  try discriminate;
  try (repeat first [by apply list_elem_of_here | apply list_elem_of_further]).
Qed.

(** C1 (amended). [compare_maps] gives each tag at most once, and each tag
    exactly when its field differs between the two snapshots: [DOM] for
    [dom_checksum], [FORMS] for [form_signature], [CAPTCHA] for the captcha
    flag, [STEP_HINT] for the multi-step flag, and [URL] for [resolved_url]
    read with an absent value as the empty string; [changed] is true
    exactly when there is a tag.  Two snapshots that differ in the captcha
    flag and agree on the other four fields give [changed] and the single
    tag [CAPTCHA]. *)
Theorem compare_maps_tags :
  (∀ previous current : CaptureMap,
      let d := compare_maps previous current in
      NoDup (change_types d)
      ∧ (DOM ∈ change_types d ↔ dom_checksum previous ≠ dom_checksum current)
      ∧ (FORMS ∈ change_types d
         ↔ form_signature previous ≠ form_signature current)
      ∧ (CAPTCHA ∈ change_types d ↔ has_captcha previous ≠ has_captcha current)
      ∧ (STEP_HINT ∈ change_types d
         ↔ likely_multi_step previous ≠ likely_multi_step current)
      ∧ (URL ∈ change_types d
         ↔ opt_or_empty (resolved_url previous)
           ≠ opt_or_empty (resolved_url current))
      ∧ (changed d = true ↔ change_types d ≠ []))
  ∧ (∀ previous current : CaptureMap,
        dom_checksum previous = dom_checksum current →
        form_signature previous = form_signature current →
        has_captcha previous ≠ has_captcha current →
        likely_multi_step previous = likely_multi_step current →
        resolved_url previous = resolved_url current →
        compare_maps previous current
        = {| changed := true; change_types := [CAPTCHA] |}).
Proof.
  split.
  - apply compare_maps_each_tag.
  - intros previous current H1 H2 H3 H4 H5. unfold compare_maps.
    rewrite (proj2 (differs_false _ _) H1), (proj2 (differs_false _ _) H2),
      (proj2 (differs_true _ _) H3), (proj2 (differs_false _ _) H4), H5.
    rewrite (proj2 (differs_false _ _) eq_refl). reflexivity.
Qed.

Lemma compare_maps_tags_witness :
  has_captcha snapshot_A ≠ has_captcha snapshot_B
  ∧ compare_maps snapshot_A snapshot_B
    = {| changed := true; change_types := [CAPTCHA] |}.
Proof.
  assert (has_captcha snapshot_A ≠ has_captcha snapshot_B) as H
    by (vm_compute; discriminate).
  split; [exact H|].
  apply (proj2 compare_maps_tags snapshot_A snapshot_B);
    [reflexivity|reflexivity|exact H|reflexivity|reflexivity].
Defined.

(** ** [_capture_target] *)

Ltac capture_cases page target :=
  unfold _capture_target, try_body, try_bind, call, on_payload, on_store,
    take_screenshot, raised, try_ret, handle_exception;
  destruct (t_target_url target) as [url|]; cbn;
  [ destruct (page_goto page url) as [[]|[]]; cbn;
    destruct (page_wait_for_timeout page) as [[]|]; cbn;
    destruct (page_content page) as [[]|html]; cbn;
    destruct (page_screenshot page) as [[]|]; cbn;
    destruct (page_evaluate page) as [[]|forms']; cbn;
    try destruct (detect_captcha page html) as [[]|has_captcha']; cbn
  | ].

(** A capture ends in one of two shapes: the error payload, which holds
    no checksum, no signature and no signal; or the payload after the
    final [payload.update], which holds both fingerprints. *)
Lemma capture_shape timeout page target mode' timestamp st :
  let capture :=
    (_capture_target timeout page target mode' timestamp st).2 in
  site_id capture = t_site_id target
  ∧ ((status capture = StatusError
      ∧ dom_checksum capture = None ∧ form_signature capture = None
      ∧ has_captcha capture = false ∧ likely_multi_step capture = false
      ∧ (t_target_url target = None → resolved_url capture = None))
     ∨ (status capture = StatusOk
        ∧ is_Some (dom_checksum capture) ∧ is_Some (form_signature capture)
        ∧ error capture = None)).
Proof.
  capture_cases page target; (split; [reflexivity|]);
    first [ left; repeat split; (reflexivity || discriminate)
          | right; repeat split; (reflexivity || by eexists) ].
Qed.

(** The status is [error] exactly when the capture failed: the target has
    no URL, or a statement of the [try] block raised. *)
Lemma capture_error_iff timeout page target mode' timestamp st :
  status (_capture_target timeout page target mode' timestamp st).2
  = StatusError
  ↔ t_target_url target = None
    ∨ ∃ url e,
        t_target_url target = Some url
        ∧ (try_body page target url
             (st, initial_payload target mode' timestamp)).2 = inl e.
Proof.
  unfold _capture_target.
  destruct (t_target_url target) as [url|] eqn:Hurl; [|by split; [left|]].
  destruct (try_body page target url (st, initial_payload target mode' timestamp))
    as [[st' p'] [e|[]]] eqn:Hbody; cbn [snd].
  - split; [intros _; right; exists url, e; by rewrite Hbody|intros _].
    revert Hbody.
    unfold try_body, try_bind, call, on_payload, on_store, take_screenshot,
      raised, try_ret.
    destruct (page_goto page url) as [[]|[]]; cbn;
      destruct (page_wait_for_timeout page) as [[]|]; cbn;
      destruct (page_content page) as [[]|html]; cbn;
      destruct (page_screenshot page) as [[]|]; cbn;
      destruct (page_evaluate page) as [[]|forms']; cbn;
      try destruct (detect_captcha page html) as [[]|has_captcha']; cbn;
      intros [= <- <- <-]; try done; intros [= <- <-]; done.
  - split; [|intros [|(u & e & [= <-] & He)]; [done|by rewrite Hbody in He]].
    revert Hbody.
    unfold try_body, try_bind, call, on_payload, on_store, take_screenshot,
      raised, try_ret.
    destruct (page_goto page url) as [[]|[]]; cbn;
      destruct (page_wait_for_timeout page) as [[]|]; cbn;
      destruct (page_content page) as [[]|html]; cbn;
      destruct (page_screenshot page) as [[]|]; cbn;
      destruct (page_evaluate page) as [[]|forms']; cbn;
      try destruct (detect_captcha page html) as [[]|has_captcha']; cbn;
      intros [= <- <-]; done.
Qed.

Example timeout_capture_error :
  status timeout_capture = StatusError
  ∧ error timeout_capture
    = Some "Navigation timeout after 25000 ms: Timeout 25000ms exceeded."
  ∧ resolved_url timeout_capture = None.
Proof. repeat split. Qed.

(** A capture writes [map.html] and the screenshot only. *)
Lemma capture_store timeout page target mode' timestamp st :
  let st' := (_capture_target timeout page target mode' timestamp st).1 in
  map_json_files st' = map_json_files st
  ∧ master_index st' = master_index st
  ∧ events_log st' = events_log st.
Proof. capture_cases page target; repeat split. Qed.

(** C8. The payload of every capture has its [dom_checksum] and its
    [form_signature] both present exactly when its status is [ok] and
    both absent exactly when its status is [error]; one is never present
    without the other. *)
Theorem capture_fingerprints_together timeout page target mode' timestamp st :
  let capture :=
    (_capture_target timeout page target mode' timestamp st).2 in
  (status capture = StatusOk
   ↔ is_Some (dom_checksum capture) ∧ is_Some (form_signature capture))
  ∧ (status capture = StatusError
     ↔ dom_checksum capture = None ∧ form_signature capture = None)
  ∧ (is_Some (dom_checksum capture) ↔ is_Some (form_signature capture)).
Proof.
  intros capture.
  destruct (capture_shape timeout page target mode' timestamp st)
    as [_ [(Hs & Hd & Hf & _)|(Hs & Hd & Hf & _)]];
    fold capture in Hs, Hd, Hf; rewrite Hs.
  - rewrite Hd, Hf. repeat split; try done; intros H;
      solve [by destruct H as [[] _] | by destruct H as []].
  - destruct Hd as [d Hd], Hf as [f Hf]. rewrite Hd, Hf.
    repeat split; try done; intros H;
      solve [by destruct H as [? _] | by eexists].
Qed.

(** ** [_record_master_index] *)

Lemma upsert_row_elem row df : row ∈ upsert_row row df.
Proof.
  unfold upsert_row. destruct (existsb _ df) eqn:E.
  - apply existsb_exists in E as (r & Hr%list_elem_of_In & Hmask).
    apply list_elem_of_fmap. exists r. by rewrite Hmask.
  - apply elem_of_app. right. apply list_elem_of_here.
Qed.

Lemma upsert_row_keys_present row df :
  existsb (mask_row (mr_site_id row)) df = true →
  mr_site_id <$> upsert_row row df = mr_site_id <$> df.
Proof.
  unfold upsert_row. intros ->. rewrite <- list_fmap_compose.
  apply list_fmap_ext. intros i r _. simpl. unfold mask_row.
  case_bool_decide; done.
Qed.

Lemma upsert_row_keys_absent row df :
  existsb (mask_row (mr_site_id row)) df = false →
  upsert_row row df = df ++ [row] ∧ mr_site_id row ∉ mr_site_id <$> df.
Proof.
  unfold upsert_row. intros E. rewrite E. split; [done|].
  intros (r & Hk & Hr)%list_elem_of_fmap.
  assert (existsb (mask_row (mr_site_id row)) df = true) as E'; [|congruence].
  apply existsb_exists. exists r. split; [by apply list_elem_of_In|].
  unfold mask_row. by apply bool_decide_eq_true.
Qed.

(** The update keeps the site ids of the index pairwise distinct. *)
Lemma upsert_row_NoDup row df :
  NoDup (mr_site_id <$> df) → NoDup (mr_site_id <$> upsert_row row df).
Proof.
  intros Hnd. destruct (existsb (mask_row (mr_site_id row)) df) eqn:E.
  - by rewrite upsert_row_keys_present.
  - destruct (upsert_row_keys_absent _ _ E) as [-> Hnot].
    rewrite fmap_app. apply NoDup_app. split; [done|]. split.
    + intros k Hk ->%list_elem_of_singleton. done.
    + apply NoDup_singleton.
Qed.


(** With distinct site ids, a row of the index that carries the site id
    of the new row is the new row. *)
Lemma upsert_row_one row df r :
  NoDup (mr_site_id <$> df) →
  r ∈ upsert_row row df → mr_site_id r = mr_site_id row → r = row.
Proof.
  intros Hnd%(upsert_row_NoDup row) Hr Hk.
  pose proof (upsert_row_elem row df) as Hrow.
  revert Hnd Hr Hrow. generalize (upsert_row row df). intros l.
  induction l as [|x l IH]; intros Hnd Hr Hrow.
  - by apply elem_of_nil in Hr.
  - rewrite fmap_cons in Hnd. apply NoDup_cons in Hnd as [Hx Hnd].
    apply elem_of_cons in Hr as [->|Hr]; apply elem_of_cons in Hrow as [Hrow|Hrow].
    + done.
    + exfalso. apply Hx. rewrite Hk. by apply list_elem_of_fmap_2.
    + subst x. exfalso. apply Hx. rewrite <- Hk. by apply list_elem_of_fmap_2.
    + by apply IH.
Qed.

(** ** [_process_single_target] *)

Lemma process_unfold timeout env target mode' st :
  _process_single_target timeout env target mode' st
  = let r := _capture_target timeout (env_page env) target mode'
                             (env_now env) st in
    diff_and_log env mode' (_load_existing_map (t_site_id target) st) r.2
      (_record_master_index r.2 (_write_map_json (t_site_id target) r.2 r.1)).
Proof.
  unfold _process_single_target. by destruct (_capture_target _ _ _ _ _ _).
Qed.

Lemma diff_and_log_files env mode' previous capture st :
  map_json_files (diff_and_log env mode' previous capture st)
  = map_json_files st
  ∧ master_index (diff_and_log env mode' previous capture st)
    = master_index st.
Proof.
  unfold diff_and_log. destruct mode', previous as [p|]; try done.
  by destruct (changed (compare_maps p capture)).
Qed.

(** What one target leaves in the output directory: its payload in
    [map.json], its row in the index, and one more event in monitor mode
    when a previous map was read and differs. *)
Lemma process_effects timeout env target mode' st :
  let capture :=
    (_capture_target timeout (env_page env) target mode' (env_now env) st).2 in
  let st' := _process_single_target timeout env target mode' st in
  map_json_files st'
  = <[t_site_id target := MapDoc capture]> (map_json_files st)
  ∧ master_index st'
    = Some (match master_index st with
            | Some df => upsert_row (master_row capture) df
            | None => [master_row capture]
            end)
  ∧ events_log st'
    = match mode', _load_existing_map (t_site_id target) st with
      | ModeMonitor, Some previous =>
          if changed (compare_maps previous capture)
          then events_log st
               ++ [change_event (env_now_event env) previous capture
                     (change_types (compare_maps previous capture))]
          else events_log st
      | _, _ => events_log st
      end.
Proof.
  intros capture st'. unfold st'. rewrite process_unfold. cbn zeta.
  fold capture.
  destruct (capture_store timeout (env_page env) target mode' (env_now env) st)
    as (Hj & Hi & He).
  destruct (diff_and_log_files env mode'
              (_load_existing_map (t_site_id target) st) capture
              (_record_master_index capture
                 (_write_map_json (t_site_id target) capture
                    (_capture_target timeout (env_page env) target mode'
                       (env_now env) st).1))) as [-> ->].
  cbn [_record_master_index _write_map_json write_master_index
       map_json_files master_index]. rewrite Hj, Hi.
  split; [done|]. split; [by destruct (master_index st)|].
  unfold diff_and_log.
  destruct mode', (_load_existing_map (t_site_id target) st) as [p|];
    try destruct (changed (compare_maps p capture));
    cbn [_record_master_index _write_map_json write_master_index events_log
         _log_change_event append_event];
    by rewrite He.
Qed.

(** C7. A target for which no earlier map can be read gets no change
    event: the run only stores the new payload as [map.json].  An event
    is appended only in monitor mode, when an earlier map was read and one
    of the five tracked fields differs from it. *)
Theorem first_capture_no_event timeout env target mode' st :
  let capture :=
    (_capture_target timeout (env_page env) target mode' (env_now env) st).2 in
  let st' := _process_single_target timeout env target mode' st in
  (_load_existing_map (t_site_id target) st = None →
   events_log st' = events_log st
   ∧ _load_existing_map (t_site_id target) st' = Some capture)
  ∧ (events_log st' ≠ events_log st →
     ∃ previous,
       _load_existing_map (t_site_id target) st = Some previous
       ∧ mode' = ModeMonitor
       ∧ (dom_checksum previous ≠ dom_checksum capture
          ∨ form_signature previous ≠ form_signature capture
          ∨ has_captcha previous ≠ has_captcha capture
          ∨ likely_multi_step previous ≠ likely_multi_step capture
          ∨ resolved_url previous ≠ resolved_url capture)).
Proof.
  intros capture st'.
  destruct (process_effects timeout env target mode' st) as (Hj & _ & He).
  fold capture st' in Hj, He. split.
  - intros Hnone. rewrite Hnone in He. split; [by destruct mode'|].
    unfold _load_existing_map. by rewrite Hj, lookup_insert_eq.
  - intros Hne.
    destruct mode', (_load_existing_map (t_site_id target) st) as [p|];
      try done.
    exists p. split; [done|]. split; [done|].
    destruct (changed (compare_maps p capture)) eqn:Hch; [|done].
    destruct (compare_maps_each_tag p capture)
      as (_ & Hdom & Hforms & Hcap & Hstep & Hurl & Hchanged).
    apply Hchanged in Hch.
    destruct (change_types (compare_maps p capture)) as [|[] l] eqn:Hl;
      [done|..].
    + left. apply Hdom. apply list_elem_of_here.
    + right; left. apply Hforms. apply list_elem_of_here.
    + do 2 right; left. apply Hcap. apply list_elem_of_here.
    + do 3 right; left. apply Hstep. apply list_elem_of_here.
    + do 4 right. apply opt_or_empty_differs, Hurl. apply list_elem_of_here.
Qed.

Lemma first_capture_no_event_witness :
  _load_existing_map (t_site_id acme_target) empty_store = None
  ∧ events_log store_after_baseline = []
  ∧ is_Some (_load_existing_map (t_site_id acme_target) store_after_baseline).
Proof.
  assert (_load_existing_map (t_site_id acme_target) empty_store = None) as H
    by reflexivity.
  split; [exact H|].
  destruct (proj1 (first_capture_no_event 25000%N
                     (env_of acme_page "2025-01-01T00:00:00+00:00")
                     acme_target ModeMap empty_store) H) as [He Hl].
  split; [exact He|]. unfold store_after_baseline. rewrite Hl. by eexists.
Defined.




(** ** The master index over a run *)

(** Every target processed leaves the site ids of the index pairwise
    distinct, with the row of its own capture among them. *)
Lemma process_index_distinct timeout env target mode' st :
  let capture :=
    (_capture_target timeout (env_page env) target mode' (env_now env) st).2 in
  let st' := _process_single_target timeout env target mode' st in
  NoDup (mr_site_id <$> index_rows st) →
  NoDup (mr_site_id <$> index_rows st')
  ∧ master_row capture ∈ index_rows st'
  ∧ (∀ r, r ∈ index_rows st' → mr_site_id r = t_site_id target →
          r = master_row capture).
Proof.
  intros capture st' Hnd.
  destruct (process_effects timeout env target mode' st) as (_ & Hi & _).
  fold capture st' in Hi. unfold index_rows in *. rewrite Hi. simpl.
  assert (mr_site_id (master_row capture) = t_site_id target) as Hsid
    by apply (capture_shape timeout (env_page env) target mode' (env_now env) st).
  destruct (master_index st) as [df|]; simpl in Hnd.
  - split; [by apply upsert_row_NoDup|].
    split; [apply upsert_row_elem|].
    intros r Hr Hk. apply (upsert_row_one _ df); [done..|]. by rewrite Hsid.
  - split; [apply NoDup_singleton|]. split; [apply list_elem_of_here|].
    by intros r ->%list_elem_of_singleton.
Qed.

Lemma run_loop_index_distinct timeout mode' limit processed targets st :
  NoDup (mr_site_id <$> index_rows st) →
  NoDup (mr_site_id <$>
           index_rows (run_loop timeout mode' limit processed targets st)).
Proof.
  revert processed st.
  induction targets as [|[target env] rest IH]; intros processed st Hnd;
    simpl; [done|].
  destruct limit as [n|].
  - destruct (n <=? processed)%nat; [done|].
    by apply IH, process_index_distinct.
  - by apply IH, process_index_distinct.
Qed.

(** The toolkit keeps one row per site id: starting without an index
    file, every run leaves pairwise distinct site ids; and a second
    capture of a site replaces the row of the first where it stands. *)
Lemma run_index_distinct timeout mode' targets limit :
  NoDup (mr_site_id <$> index_rows (_run timeout mode' targets limit empty_store)).
Proof. apply run_loop_index_distinct. simpl. apply NoDup_nil_2. Qed.

Example toolkit_second_capture_replaces :
  let st2 := _process_single_target 25000%N
               (env_of acme_captcha_page "2025-01-02T00:00:00+00:00")
               acme_target ModeMonitor store_after_baseline in
  (mr_site_id <$> index_rows st2, mr_last_captured_at <$> index_rows st2,
   mr_has_captcha <$> index_rows st2)
  = (["acme-co"], ["2025-01-02T00:00:00+00:00"], [true])
  ∧ ev_change_type <$> events_log st2 = ["DOM,CAPTCHA"].
Proof. split; vm_compute; reflexivity. Qed.

(** C6, on the standalone script.  [persist_map] writes its row at the end
    of the index whatever the index holds: two captures of the site
    [acme-co] leave two rows for it, the row of the first capture
    included. *)
Theorem persist_map_appends :
  lr_site_id <$> legacy_index legacy_store_after_two = ["acme-co"; "acme-co"]
  ∧ lr_dom_sha256 <$> legacy_index legacy_store_after_two = ["11"; "22"]
  ∧ (∀ pm st, legacy_index (persist_map pm st)
              = legacy_index st ++ [legacy_row pm]).
Proof. repeat split. Qed.

(* ===================================================================== *)
(** * Part III: further properties of the code *)
(* ===================================================================== *)

(** ** The shape of a digest *)

Lemma append_cons c s t : String c s +:+ t = String c (s +:+ t).
Proof. reflexivity. Qed.

Lemma length_append (s t : string) :
  String.length (s +:+ t) = (String.length s + String.length t)%nat.
Proof.
  induction s as [|c s IH]; [done|]. rewrite append_cons. simpl. by rewrite IH.
Qed.

Lemma str_all_append P (s t : string) :
  str_all P (s +:+ t) = str_all P s && str_all P t.
Proof.
  induction s as [|c s IH]; [done|]. rewrite append_cons. simpl.
  by rewrite IH, andb_assoc.
Qed.

Lemma hex_digit_is_hex n : (n < 16)%N → is_hex_char (Sha256.hex_digit n) = true.
Proof.
  intros Hn. unfold Sha256.hex_digit.
  assert (n ∈ [0;1;2;3;4;5;6;7;8;9;10;11;12;13;14;15]%N) as Hcases.
  { rewrite !elem_of_cons. lia. }
  repeat (apply elem_of_cons in Hcases as [->|Hcases]; [by vm_compute|]).
  by apply elem_of_nil in Hcases.
Qed.

Lemma hex_shape digits x :
  String.length (Sha256.hex digits x) = digits
  ∧ str_all is_hex_char (Sha256.hex digits x) = true.
Proof.
  revert x. induction digits as [|k IH]; intros x; [done|].
  cbn [Sha256.hex]. rewrite length_append, str_all_append.
  destruct (IH (x / 16)%N) as [-> ->]. simpl. split; [lia|].
  rewrite hex_digit_is_hex; [done|]. apply N.mod_lt. done.
Qed.

Lemma compress_length h block : length (Sha256.compress h block) = 8%nat.
Proof. reflexivity. Qed.

Lemma digest_length msg : length (Sha256.digest msg) = 8%nat.
Proof.
  unfold Sha256.digest. generalize (Sha256.words (Sha256.pad msg)). intros ws.
  generalize (Sha256.blocks (length ws) ws). intros bs.
  assert (length Sha256.H0 = 8%nat) as H by reflexivity.
  revert H. generalize Sha256.H0. induction bs as [|b bs IH]; intros h Hh.
  - done.
  - simpl. apply IH, compress_length.
Qed.

(** X1. Whatever the text, [sha256_text] returns 64 characters, each a
    digit or a letter from [a] to [f]: the form of [dom_checksum] and
    [form_signature] in every payload. *)
Theorem sha256_text_shape (payload : string) :
  String.length (sha256_text payload) = 64%nat
  ∧ str_all is_hex_char (sha256_text payload) = true.
Proof.
  unfold sha256_text, Sha256.hexdigest.
  pose proof (digest_length (utf8_encode payload)) as Hlen.
  destruct (Sha256.digest (utf8_encode payload))
    as [|a [|b [|c [|d [|e [|f [|g [|h [|i l]]]]]]]]]; try done.
  cbn [map String.concat].
  rewrite !length_append, !str_all_append.
  destruct (hex_shape 8 a) as [-> ->], (hex_shape 8 b) as [-> ->],
    (hex_shape 8 c) as [-> ->], (hex_shape 8 d) as [-> ->],
    (hex_shape 8 e) as [-> ->], (hex_shape 8 f) as [-> ->],
    (hex_shape 8 g) as [-> ->], (hex_shape 8 h) as [-> ->].
  done.
Qed.

(** ** The shape of a site id *)

(** X2. Every site id that [sanitize_site_id] returns is non-empty, made
    of lower-case alphanumeric characters, [-] and [_], neither starts nor
    ends with [-] or [_], and holds no two [-] in a row. *)
Theorem sanitize_site_id_shape (raw : string) :
  let sid := sanitize_site_id raw in
  sid ≠ ""
  ∧ str_all (λ c, Ascii.eqb (lower_char c) c && (isalnum c || char_in c "-_"))
            sid = true
  ∧ head_ok "-_" sid = true
  ∧ last_ok "-_" sid = true
  ∧ contains "--" sid = false.
Proof.
  intros sid.
  assert (clean_id sid = true) as H.
  { unfold sid, sanitize_site_id.
    destruct (sanitize_stages_clean raw) as [-> | H]; [done|].
    destruct (collapse_dashes _); done. }
  unfold clean_id in H.
  apply andb_true_iff in H as [H Hne]. apply andb_true_iff in H as [H Hdd].
  apply andb_true_iff in H as [H Hlast]. apply andb_true_iff in H as [Hall Hhd].
  repeat split; try done.
  - intros Heq. rewrite Heq in Hne. done.
  - by apply negb_true_iff.
Qed.

(** ** The multi-step flag *)

Lemma str_or_empty s : str_or s "" = s.
Proof. by destruct s. Qed.

Lemma exists_elem_nonempty {A} (l : list A) : l ≠ [] ↔ ∃ x, x ∈ l.
Proof.
  destruct l as [|x l]; split; try done.
  - by intros [x Hx%elem_of_nil].
  - intros _. exists x. apply list_elem_of_here.
Qed.

Lemma exists_elem_app {A} (l1 l2 : list A) :
  (∃ x, x ∈ l1 ++ l2) ↔ (∃ x, x ∈ l1) ∨ (∃ x, x ∈ l2).
Proof.
  split.
  - intros [x [H|H]%elem_of_app]; [left|right]; by exists x.
  - intros [[x H]|[x H]]; exists x; apply elem_of_app; [by left|by right].
Qed.

Lemma exists_elem_if {A} (b : bool) (s : A) :
  (∃ x, x ∈ (if b then [s] else [])) ↔ b = true.
Proof.
  destruct b; split; try done.
  - intros _. exists s. apply list_elem_of_here.
  - by intros [x Hx%elem_of_nil].
Qed.

Lemma exists_elem_flat_map {A B} (f : A → list B) (l : list A) :
  (∃ y, y ∈ flat_map f l) ↔ ∃ x, x ∈ l ∧ ∃ y, y ∈ f x.
Proof.
  split.
  - intros [y Hy%list_elem_of_In%in_flat_map]. destruct Hy as (x & Hx & Hy).
    exists x. split; [by apply list_elem_of_In|].
    exists y. by apply list_elem_of_In.
  - intros (x & Hx & y & Hy). exists y. apply list_elem_of_In, in_flat_map.
    exists x. split; by apply list_elem_of_In.
Qed.

Lemma sorted_set_nonempty l : sorted_set l ≠ [] ↔ l ≠ [].
Proof.
  rewrite !exists_elem_nonempty. split; intros [s Hs]; exists s;
    by apply sorted_set_elem_of.
Qed.

(** No continuation term occurs in the empty text: the test [if text] of
    the source never fails once a term was found. *)
Lemma continuation_term_text text :
  existsb (λ term, contains term text) continuation_terms = true →
  negb (String.eqb text "") = true.
Proof. by destruct text. Qed.

Lemma infer_multi_step_likely_signals forms' dom_html :
  likely (infer_multi_step forms' dom_html) = true
  ↔ collected_signals forms' dom_html ≠ [].
Proof.
  cbn [infer_multi_step likely]. rewrite negb_true_iff, bool_decide_eq_false.
  apply sorted_set_nonempty.
Qed.

(** X3. [likely] is true exactly when the page shows one of the cues: one
    of the four markers in the HTML whatever its case, more than one form,
    a dataset entry of a form whose key or value holds "step", or a submit
    candidate whose text holds a continuation term. *)
Theorem infer_multi_step_likely (forms' : list FormDescriptor) (dom_html : string) :
  likely (infer_multi_step forms' dom_html) = true
  ↔ contains "data-step" (lower dom_html) = true
    ∨ contains "form-step" (lower dom_html) = true
    ∨ contains "wizard" (lower dom_html) = true
    ∨ contains "progressbar" (lower dom_html) = true
    ∨ (∃ form kv,
          form ∈ forms' ∧ kv ∈ form_dataset form
          ∧ (contains "step" (lower kv.1) = true
             ∨ contains "step" (lower kv.2) = true))
    ∨ (∃ form submit term,
          form ∈ forms' ∧ submit ∈ form_submitters form
          ∧ term ∈ continuation_terms
          ∧ contains term (lower (submit_text submit)) = true)
    ∨ (1 < length forms')%nat.
Proof.
  rewrite infer_multi_step_likely_signals.
  rewrite exists_elem_nonempty. unfold collected_signals.
  rewrite str_or_empty.
  rewrite !exists_elem_app, !exists_elem_if, exists_elem_flat_map.
  rewrite Nat.ltb_lt.
  assert ((∃ form, form ∈ forms' ∧
             ∃ y, y ∈ dataset_signals (form_dataset form)
                      ++ submit_signals (form_submitters form))
          ↔ (∃ form kv,
                form ∈ forms' ∧ kv ∈ form_dataset form
                ∧ (contains "step" (lower kv.1) = true
                   ∨ contains "step" (lower kv.2) = true))
            ∨ (∃ form submit term,
                  form ∈ forms' ∧ submit ∈ form_submitters form
                  ∧ term ∈ continuation_terms
                  ∧ contains term (lower (submit_text submit)) = true)) as ->.
  { split.
    - intros (form & Hform & Hy). apply exists_elem_app in Hy as [Hy|Hy].
      + left. unfold dataset_signals in Hy.
        apply exists_elem_flat_map in Hy as (kv & Hkv & Hy).
        apply exists_elem_if, orb_true_iff in Hy. by exists form, kv.
      + right. unfold submit_signals in Hy.
        apply exists_elem_flat_map in Hy as (submit & Hsubmit & Hy).
        rewrite str_or_empty in Hy.
        destruct (existsb _ continuation_terms) eqn:E;
          [|by destruct Hy as [? ?%elem_of_nil]].
        apply existsb_exists in E as (term & Hterm%list_elem_of_In & Hc).
        by exists form, submit, term.
    - intros [(form & kv & Hform & Hkv & Hstep)
             |(form & submit & term & Hform & Hsubmit & Hterm & Hc)];
        exists form; (split; [done|]); apply exists_elem_app; [left|right].
      + unfold dataset_signals. apply exists_elem_flat_map. exists kv.
        split; [done|]. by apply exists_elem_if, orb_true_iff.
      + unfold submit_signals. apply exists_elem_flat_map. exists submit.
        split; [done|]. rewrite str_or_empty.
        assert (existsb (λ term, contains term (lower (submit_text submit)))
                        continuation_terms = true) as E.
        { apply existsb_exists. exists term. by rewrite <- list_elem_of_In. }
        rewrite E, (continuation_term_text _ E). eexists.
        apply list_elem_of_here. }
  tauto.
Qed.

(** ** [detect_captcha] *)

Lemma probe_selectors_no_playwright_error page selectors e :
  probe_selectors page selectors = inl e → is_playwright_error e = false.
Proof.
  induction selectors as [|selector rest IH]; simpl; [done|].
  destruct (page_locator_count page selector) as [e'|n].
  - destruct (is_playwright_error e') eqn:E; [done|]. by intros [= <-].
  - destruct (0 <? n)%nat; [done|apply IH].
Qed.

Lemma probe_selectors_true page selectors :
  probe_selectors page selectors = inr true →
  ∃ selector n, selector ∈ selectors
                ∧ page_locator_count page selector = inr n ∧ (0 < n)%nat.
Proof.
  induction selectors as [|selector rest IH]; simpl; [done|].
  destruct (page_locator_count page selector) as [e'|n] eqn:Hc.
  - by destruct (is_playwright_error e').
  - destruct (0 <? n)%nat eqn:Hn.
    + intros _. exists selector, n. split; [apply list_elem_of_here|].
      split; [done|]. by apply Nat.ltb_lt.
    + intros (s & m & Hs & Hm)%IH. exists s, m.
      split; [by apply list_elem_of_further|done].
Qed.

Lemma probe_selectors_quiet page selectors :
  (∀ selector, selector ∈ selectors →
               page_locator_count page selector = inr 0%nat) →
  probe_selectors page selectors = inr false.
Proof.
  induction selectors as [|selector rest IH]; simpl; intros H; [done|].
  rewrite (H selector) by apply list_elem_of_here. simpl.
  apply IH. intros s Hs. apply H. by apply list_elem_of_further.
Qed.

(** X4. [detect_captcha] answers [True] from the HTML alone as soon as it
    holds one of the keywords in any case, without asking the page; it
    never lets a Playwright error out (the answer is then [False] unless
    an earlier probe matched); it answers [True] only for a keyword or a
    probe that counts an element; and it answers [False] when there is no
    keyword and every probe counts nothing. *)
Theorem detect_captcha_answers (page : Page) (dom_html : string) :
  (existsb (λ keyword, contains keyword (lower dom_html)) captcha_keywords
   = true →
   ∀ page', detect_captcha page' dom_html = inr true)
  ∧ (∀ e, detect_captcha page dom_html = inl e →
          is_playwright_error e = false)
  ∧ (detect_captcha page dom_html = inr true →
     existsb (λ keyword, contains keyword (lower dom_html)) captcha_keywords
     = true
     ∨ ∃ selector n, selector ∈ captcha_selectors
                     ∧ page_locator_count page selector = inr n
                     ∧ (0 < n)%nat)
  ∧ (existsb (λ keyword, contains keyword (lower dom_html)) captcha_keywords
     = false →
     (∀ selector, selector ∈ captcha_selectors →
                  page_locator_count page selector = inr 0%nat) →
     detect_captcha page dom_html = inr false).
Proof.
  unfold detect_captcha. rewrite str_or_empty.
  split; [by intros -> page'|]. split; [|split].
  - intros e. destruct (existsb _ captcha_keywords); [done|].
    apply probe_selectors_no_playwright_error.
  - destruct (existsb _ captcha_keywords); [by left|].
    intros H. right. by apply probe_selectors_true.
  - intros -> H. by apply probe_selectors_quiet.
Qed.

Lemma detect_captcha_answers_witness :
  existsb (λ keyword, contains keyword (lower acme_captcha_html))
          captcha_keywords = true
  ∧ detect_captcha timeout_page acme_captcha_html = inr true
  ∧ detect_captcha acme_page plain_html = inr false.
Proof.
  assert (existsb (λ keyword, contains keyword (lower acme_captcha_html))
                  captcha_keywords = true) as H by reflexivity.
  split; [exact H|]. split.
  - exact (proj1 (detect_captcha_answers acme_page acme_captcha_html) H
             timeout_page).
  - apply (proj2 (proj2 (proj2 (detect_captcha_answers acme_page plain_html))));
      [reflexivity|]. intros selector _. reflexivity.
Defined.

(** ** [compare_maps]: order, symmetry *)

Lemma differs_sym {A} `{EqDecision A} (a b : A) : differs a b = differs b a.
Proof.
  unfold differs. do 2 case_bool_decide; congruence.
Qed.

Lemma differs_refl {A} `{EqDecision A} (a : A) : differs a a = false.
Proof. by apply differs_false. Qed.

(** X5. Comparing a snapshot with itself reports no change; comparing two
    snapshots in either direction gives the same tags; and the tags always
    come in the order DOM, FORMS, CAPTCHA, STEP_HINT, URL, each at most
    once. *)
Theorem compare_maps_symmetric (previous current : CaptureMap) :
  compare_maps current current = {| changed := false; change_types := [] |}
  ∧ compare_maps previous current = compare_maps current previous
  ∧ change_types (compare_maps previous current) `sublist_of` tag_order.
Proof.
  unfold compare_maps. split; [|split].
  - by rewrite !differs_refl.
  - by rewrite (differs_sym (dom_checksum previous)),
      (differs_sym (form_signature previous)),
      (differs_sym (has_captcha previous)),
      (differs_sym (likely_multi_step previous)),
      (differs_sym (opt_or_empty (resolved_url previous))).
  - cbn [change_types]. unfold tag_order.
    destruct (differs (dom_checksum previous) _),
      (differs (form_signature previous) _),
      (differs (has_captcha previous) _),
      (differs (likely_multi_step previous) _),
      (differs (opt_or_empty (resolved_url previous)) _); cbn [app];
      repeat first [apply sublist_nil_l | apply sublist_skip | apply sublist_cons].
Qed.

(** ** One target: files, payload *)





(** X7. The payload of every capture is consistent with itself:
    [form_count] and [field_count] count the forms it holds and their
    fields, [likely_multi_step] repeats [multi_step_signal.likely],
    [submitters] lists the selectors of its forms, its site id and time
    stamp are those of the call; an error message is present exactly when
    the status is [error]; and a capture with status [ok] holds the
    resolved URL. *)
Theorem capture_payload_consistent timeout page target mode' timestamp st :
  let capture :=
    (_capture_target timeout page target mode' timestamp st).2 in
  form_count capture = length (forms capture)
  ∧ field_count capture = count_fields (forms capture)
  ∧ likely_multi_step capture = likely (multi_step_signal capture)
  ∧ submitters capture = submitter_selectors (forms capture)
  ∧ site_id capture = t_site_id target
  ∧ captured_at capture = timestamp
  ∧ mode capture = mode'
  ∧ (status capture = StatusError ↔ is_Some (error capture))
  ∧ (status capture = StatusOk → resolved_url capture = Some (page_url page)).
Proof.
  capture_cases page target; repeat split; try done;
    try (by eexists); try (by intros [? ?]).
Qed.

(** X8. A target with no homepage and no (or an empty) submission URL is
    recorded as a capture error with a fixed message; the page is not
    asked anything and nothing is written during the capture.  Any other
    target has a URL: the submission URL when it is not empty, else the
    homepage. *)
Theorem capture_without_url timeout page target mode' timestamp st :
  (t_homepage target = ""
   ∧ (t_submission_url target = None ∨ t_submission_url target = Some "")
   ↔ t_target_url target = None)
  ∧ (t_target_url target = None →
     _capture_target timeout page target mode' timestamp st
     = (st, set_error
              (Some "Missing submission_url and homepage; nothing to capture.")
              (initial_payload target mode' timestamp)))
  ∧ (∀ url, t_target_url target = Some url →
            url ≠ ""
            ∧ (url = t_homepage target
               ∨ t_submission_url target = Some url)).
Proof.
  split; [|split].
  - unfold t_target_url.
    destruct (t_submission_url target) as [[|c u]|], (t_homepage target);
      (split; [intros [? [?|?]]; done|intros ?; try done]); auto.
  - unfold _capture_target. by intros ->.
  - intros url. unfold t_target_url.
    destruct (t_submission_url target) as [[|c u]|], (t_homepage target);
      intros [= <-]; split; try done; first [by left|by right].
Qed.

Lemma capture_without_url_witness :
  t_target_url blank_target = None
  ∧ status (_capture_target 25000%N acme_page blank_target ModeMap
              "2025-01-04T00:00:00+00:00" empty_store).2 = StatusError
  ∧ t_target_url other_target = Some "https://other.test/add".
Proof.
  assert (t_target_url blank_target = None) as H by reflexivity.
  split; [exact H|]. split.
  - rewrite (proj1 (proj2 (capture_without_url 25000%N acme_page blank_target
                             ModeMap "2025-01-04T00:00:00+00:00" empty_store)) H).
    reflexivity.
  - reflexivity.
Defined.

(** ** The run: events, limit, every target recorded *)

Lemma process_events_appended timeout env target mode' st :
  ∃ new_events,
    events_log (_process_single_target timeout env target mode' st)
    = events_log st ++ new_events
    ∧ (length new_events ≤ 1)%nat
    ∧ (mode' = ModeMap → new_events = [])
    ∧ Forall (λ ev, ev_level ev = "CHANGE" ∧ ev_site_id ev = t_site_id target)
             new_events.
Proof.
  destruct (process_effects timeout env target mode' st) as (_ & _ & He).
  rewrite He.
  assert (∃ new_events : list EventRow,
             events_log st = events_log st ++ new_events
             ∧ (length new_events ≤ 1)%nat
             ∧ (mode' = ModeMap → new_events = [])
             ∧ Forall (λ ev, ev_level ev = "CHANGE"
                             ∧ ev_site_id ev = t_site_id target) new_events)
    as Hnone
    by (exists []; rewrite app_nil_r; split; [done|]; split; [simpl; lia|];
        split; [done|constructor]).
  destruct mode', (_load_existing_map (t_site_id target) st) as [p|]; try done.
  destruct (changed (compare_maps p _)); [|done].
  eexists. split; [done|]. split; [simpl; lia|]. split; [done|].
  constructor; [|done]. split; [done|]. cbn.
  apply (capture_shape timeout (env_page env) target ModeMonitor (env_now env) st).
Qed.

Lemma run_loop_events timeout mode' limit processed targets st :
  ∃ new_events,
    events_log (run_loop timeout mode' limit processed targets st)
    = events_log st ++ new_events
    ∧ (length new_events ≤ length targets)%nat
    ∧ (mode' = ModeMap → new_events = [])
    ∧ Forall (λ ev, ev_level ev = "CHANGE"
                    ∧ ev_site_id ev ∈ target_ids targets) new_events.
Proof.
  revert processed st.
  induction targets as [|[target env] rest IH]; intros processed st.
  { exists []. rewrite app_nil_r. split; [done|]. split; [simpl; lia|].
    split; [done|constructor]. }
  assert (∃ new_events : list EventRow,
             events_log st = events_log st ++ new_events
             ∧ (length new_events ≤ length ((target, env) :: rest))%nat
             ∧ (mode' = ModeMap → new_events = [])
             ∧ Forall (λ ev, ev_level ev = "CHANGE"
                             ∧ ev_site_id ev
                               ∈ target_ids ((target, env) :: rest)) new_events)
    as Hstop
    by (exists []; rewrite app_nil_r; split; [done|]; split; [simpl; lia|];
        split; [done|constructor]).
  assert (∃ new_events : list EventRow,
             events_log (run_loop timeout mode' limit (S processed) rest
                           (_process_single_target timeout env target mode' st))
             = events_log st ++ new_events
             ∧ (length new_events ≤ length ((target, env) :: rest))%nat
             ∧ (mode' = ModeMap → new_events = [])
             ∧ Forall (λ ev, ev_level ev = "CHANGE"
                             ∧ ev_site_id ev
                               ∈ target_ids ((target, env) :: rest)) new_events)
    as Hgo.
  { destruct (process_events_appended timeout env target mode' st)
      as (ev1 & He1 & Hl1 & Hm1 & Hf1).
    destruct (IH (S processed)
                (_process_single_target timeout env target mode' st))
      as (ev2 & He2 & Hl2 & Hm2 & Hf2).
    exists (ev1 ++ ev2). rewrite He2, He1, app_assoc.
    split; [done|]. split; [rewrite length_app; simpl; lia|].
    split; [intros Hm; by rewrite (Hm1 Hm), (Hm2 Hm)|].
    apply Forall_app. split.
    - eapply Forall_impl; [exact Hf1|]. intros ev [? ->].
      split; [done|]. apply list_elem_of_here.
    - eapply Forall_impl; [exact Hf2|]. intros ev [? ?].
      split; [done|]. by apply list_elem_of_further. }
  simpl. destruct limit as [n|]; [|done].
  by destruct (n <=? processed)%nat.
Qed.

(** X9. A run only adds to [events.csv]: the rows it finds stay in front,
    in their order; it adds at most one row per target, each of level
    [CHANGE] and for the site id of a target of the run; a run in map mode
    adds none. *)
Theorem run_events_append_only timeout mode' targets limit st :
  ∃ new_events,
    events_log (_run timeout mode' targets limit st)
    = events_log st ++ new_events
    ∧ (length new_events ≤ length targets)%nat
    ∧ (mode' = ModeMap → new_events = [])
    ∧ Forall (λ ev, ev_level ev = "CHANGE"
                    ∧ ev_site_id ev ∈ target_ids targets) new_events.
Proof. apply run_loop_events. Qed.

Lemma run_events_append_only_witness :
  events_log (_run 25000%N ModeMap
                [(acme_target, env_of acme_page "2025-01-01T00:00:00+00:00");
                 (acme_target, env_of acme_captcha_page "2025-01-01T00:05:00+00:00")]
                None empty_store) = [].
Proof.
  destruct (run_events_append_only 25000%N ModeMap
              [(acme_target, env_of acme_page "2025-01-01T00:00:00+00:00");
               (acme_target, env_of acme_captcha_page "2025-01-01T00:05:00+00:00")]
              None empty_store) as (new_events & -> & _ & Hmap & _).
  by rewrite (Hmap eq_refl).
Defined.

Lemma run_loop_limit timeout mode' n processed targets st :
  run_loop timeout mode' (Some n) processed targets st
  = run_loop timeout mode' None processed (take (n - processed) targets) st.
Proof.
  revert processed st.
  induction targets as [|[target env] rest IH]; intros processed st.
  - by rewrite take_nil.
  - cbn [run_loop]. destruct (n <=? processed)%nat eqn:E.
    + apply Nat.leb_le in E. by replace (n - processed)%nat with 0%nat by lia.
    + apply Nat.leb_gt in E.
      replace (n - processed)%nat with (S (n - S processed)) by lia.
      cbn [take run_loop]. apply IH.
Qed.

Lemma run_loop_processed timeout mode' processed processed' targets st :
  run_loop timeout mode' None processed targets st
  = run_loop timeout mode' None processed' targets st.
Proof.
  revert processed processed' st.
  induction targets as [|[target env] rest IH]; intros p p' st; [done|].
  cbn [run_loop]. apply IH.
Qed.

Lemma run_loop_app timeout mode' processed targets1 targets2 st :
  run_loop timeout mode' None processed (targets1 ++ targets2) st
  = run_loop timeout mode' None processed targets2
      (run_loop timeout mode' None processed targets1 st).
Proof.
  revert processed st.
  induction targets1 as [|[target env] rest IH]; intros processed st; [done|].
  cbn [app run_loop]. rewrite IH.
  apply run_loop_processed.
Qed.

(** X10. A run with a limit is the run without limit on the first [limit]
    targets: a limit of zero changes nothing, a limit beyond the list is no
    limit; and a run over two lists in a row is the run over the first
    followed by the run over the second. *)
Theorem run_limit timeout mode' targets st :
  (∀ n, _run timeout mode' targets (Some n) st
        = _run timeout mode' (take n targets) None st)
  ∧ _run timeout mode' targets (Some 0%nat) st = st
  ∧ (∀ n, (length targets ≤ n)%nat →
          _run timeout mode' targets (Some n) st
          = _run timeout mode' targets None st)
  ∧ (∀ more, _run timeout mode' (targets ++ more) None st
             = _run timeout mode' more None
                 (_run timeout mode' targets None st)).
Proof.
  unfold _run. split; [|split; [|split]].
  - intros n. rewrite run_loop_limit. by rewrite Nat.sub_0_r.
  - by destruct targets as [|[? ?] ?].
  - intros n Hn. rewrite run_loop_limit, Nat.sub_0_r. by rewrite take_ge.
  - intros more. apply run_loop_app.
Qed.

Lemma run_limit_witness :
  (length [(acme_target, env_of timeout_page "t1")] ≤ 3)%nat
  ∧ _run 25000%N ModeMap [(acme_target, env_of timeout_page "t1")] (Some 3%nat)
         empty_store
    = _run 25000%N ModeMap [(acme_target, env_of timeout_page "t1")] None
           empty_store.
Proof.
  assert (length [(acme_target, env_of timeout_page "t1")] ≤ 3)%nat as H
    by (simpl; lia).
  split; [exact H|].
  exact (proj1 (proj2 (proj2 (run_limit 25000%N ModeMap
                                [(acme_target, env_of timeout_page "t1")]
                                empty_store))) 3%nat H).
Defined.

(** ** Every target of a run is recorded *)





(** ** The master index of the toolkit *)



(** ** What a failing capture leaves behind *)

Lemma probe_selectors_with_screenshot r page selectors :
  probe_selectors (with_screenshot r page) selectors
  = probe_selectors page selectors.
Proof.
  induction selectors as [|selector rest IH]; simpl; [done|]. by rewrite IH.
Qed.

Lemma detect_captcha_with_screenshot r page html :
  detect_captcha (with_screenshot r page) html = detect_captcha page html.
Proof.
  unfold detect_captcha. by rewrite probe_selectors_with_screenshot.
Qed.

(** X13. A screenshot that fails with a Playwright error does not fail the
    capture: the payload is the one of the same page with a screenshot
    that works, and so is [map.html]; only the screenshot file is not
    written.  Another exception raised by the screenshot makes the capture
    an error. *)
Theorem screenshot_failure_harmless timeout page target mode' timestamp st e :
  let failed :=
    _capture_target timeout (with_screenshot (Some e) page) target mode'
                    timestamp st in
  let worked :=
    _capture_target timeout (with_screenshot None page) target mode'
                    timestamp st in
  (is_playwright_error e = true →
   failed.2 = worked.2
   ∧ map_html_files failed.1 = map_html_files worked.1
   ∧ screenshot_files failed.1 = screenshot_files st)
  ∧ (is_playwright_error e = false →
     status worked.2 = StatusOk → status failed.2 = StatusError).
Proof.
  unfold _capture_target, try_body, try_bind, call, on_payload, on_store,
    take_screenshot, raised, try_ret, handle_exception.
  cbn [with_screenshot page_goto page_url page_wait_for_timeout page_content
       page_screenshot page_evaluate page_elapsed_ms].
  destruct (t_target_url target) as [url|]; [|by split].
  destruct (page_goto page url) as [[]|[]]; cbn;
    destruct (page_wait_for_timeout page) as [[]|]; cbn;
    destruct (page_content page) as [[]|html]; cbn;
    try (split; [by intros _|by intros _]);
    (split; [intros ->|intros ->]); cbn;
    destruct (page_evaluate page) as [[]|forms']; cbn; try done;
    rewrite ?detect_captcha_with_screenshot;
    try destruct (detect_captcha page html) as [[]|has_captcha']; cbn;
    try done; by destruct e.
Qed.

Lemma screenshot_failure_harmless_witness :
  is_playwright_error (PlaywrightTimeoutError "screenshot timed out") = true
  ∧ status (_capture_target 25000%N
              (with_screenshot
                 (Some (PlaywrightTimeoutError "screenshot timed out")) acme_page)
              acme_target ModeMap "t1" empty_store).2 = StatusOk.
Proof.
  split; [reflexivity|].
  rewrite (proj1 (proj1 (screenshot_failure_harmless 25000%N acme_page
                           acme_target ModeMap "t1" empty_store
                           (PlaywrightTimeoutError "screenshot timed out"))
                   eq_refl)).
  reflexivity.
Defined.

(** X14. What a capture has done before it fails stays done.  When the
    navigation raises, the payload holds no resolved URL and nothing is
    written; once the navigation has answered, the payload holds the URL
    of the page and the status code of the response, and once the content
    was read it is saved as [map.html], even if a later step raises and the
    capture ends as an error.  Every capture that navigated records its
    duration. *)
Theorem capture_partial_effects timeout page target mode' timestamp st url :
  t_target_url target = Some url →
  let result := _capture_target timeout page target mode' timestamp st in
  (∀ e, page_goto page url = inl e →
        status result.2 = StatusError
        ∧ resolved_url result.2 = None
        ∧ map_html_files result.1 = map_html_files st
        ∧ screenshot_files result.1 = screenshot_files st)
  ∧ (∀ response, page_goto page url = inr response →
                 resolved_url result.2 = Some (page_url page)
                 ∧ status_code result.2 = response)
  ∧ (∀ response html,
        page_goto page url = inr response →
        page_wait_for_timeout page = None →
        page_content page = inr html →
        map_html_files result.1 !! t_site_id target = Some html)
  ∧ load_duration_ms result.2 = Some (page_elapsed_ms page).
Proof.
  intros Hurl.
  unfold _capture_target, try_body, try_bind, call, on_payload, on_store,
    take_screenshot, raised, try_ret, handle_exception.
  rewrite Hurl.
  destruct (page_goto page url) as [[]|[]]; cbn;
    destruct (page_wait_for_timeout page) as [[]|]; cbn;
    destruct (page_content page) as [[]|html]; cbn;
    destruct (page_screenshot page) as [[]|]; cbn;
    destruct (page_evaluate page) as [[]|forms']; cbn;
    try destruct (detect_captcha page html) as [[]|has_captcha']; cbn;
    (split; [intros; try done|]);
    (split; [intros ? [= <-]; try done|]);
    (split; [|done]); intros ? ? ? ? [= <-]; try done;
    apply lookup_insert_eq.
Qed.

Lemma capture_partial_effects_witness :
  let result := _capture_target 25000%N broken_script_page acme_target
                  ModeMonitor "t1" empty_store in
  t_target_url acme_target = Some "https://acme.test"
  ∧ status result.2 = StatusError
  ∧ error result.2 = Some "Playwright error: Execution context was destroyed"
  ∧ resolved_url result.2 = Some "https://acme.test/join"
  ∧ map_html_files result.1 !! "acme-co" = Some plain_html.
Proof.
  intros result.
  assert (t_target_url acme_target = Some "https://acme.test") as H
    by reflexivity.
  split; [exact H|]. split; [reflexivity|]. split; [reflexivity|].
  destruct (capture_partial_effects 25000%N broken_script_page acme_target
              ModeMonitor "t1" empty_store _ H) as (_ & Hres & Hhtml & _).
  split.
  - exact (proj1 (Hres None eq_refl)).
  - exact (Hhtml None plain_html eq_refl eq_refl eq_refl).
Defined.

(** ** More on [toSelector] *)

Lemma chain_parts_length above node path parts :
  chain_parts above node path = Some parts →
  length parts = S (length path).
Proof.
  revert above node parts.
  induction path as [|i path IH]; intros above node parts; simpl.
  - by intros [= <-].
  - destruct (children node !! i) as [child|]; [|done].
    destruct (chain_parts _ child path) as [below|] eqn:E; [|done].
    intros [= <-]. simpl. by rewrite (IH _ _ _ E).
Qed.

Lemma chain_parts_last above node path parts el :
  chain_parts above node path = Some parts →
  locate node path = Some el →
  last parts = Some (tag_with_classes el).
Proof.
  revert above node parts.
  induction path as [|i path IH]; intros above node parts; simpl.
  - by intros [= <-] [= <-].
  - destruct (children node !! i) as [child|]; [|done].
    destruct (chain_parts _ child path) as [below|] eqn:E; [|done].
    intros [= <-] Hel. rewrite last_cons, (IH _ _ _ E Hel). done.
Qed.

Lemma chain_parts_head node path parts :
  chain_parts None node path = Some parts →
  head parts = Some (tag_with_classes node).
Proof.
  destruct path as [|i path]; simpl.
  - by intros [= <-].
  - destruct (children node !! i) as [child|]; [|done].
    destruct (chain_parts _ child path) as [below|]; [|done].
    intros [= <-]. simpl. by rewrite append_empty_r.
Qed.

(** X15. [toSelector] answers [null] exactly when there is no element at
    the position.  For an element without id the selector has one part
    per node from the document root to the element: the first is the tag
    and classes of the root, the last the tag and classes of the element,
    both without position. *)
Theorem toSelector_parts (root : Element) (path : list nat) :
  (toSelector root path = None ↔ locate root path = None)
  ∧ (∀ el, locate root path = Some el → el_id el = "" →
           ∃ parts, toSelector root path = Some (join " > " parts)
                    ∧ length parts = S (length path)
                    ∧ head parts = Some (tag_with_classes root)
                    ∧ last parts = Some (tag_with_classes el)).
Proof.
  unfold toSelector. split.
  - destruct (locate root path) as [el|] eqn:Hel; [|done].
    split; [|done]. destruct (el_id el); [|done].
    rewrite selector_loop_chain.
    destruct (chain_parts_located None root path) as [parts ->];
      [by rewrite Hel|done].
  - intros el Hel Hid. rewrite Hel, Hid, selector_loop_chain.
    destruct (chain_parts_located None root path) as [parts Hparts];
      [by rewrite Hel|].
    rewrite Hparts. exists parts. split; [done|].
    split; [by apply chain_parts_length in Hparts|].
    split; [by apply chain_parts_head in Hparts|].
    by apply (chain_parts_last None root path).
Qed.

Lemma toSelector_parts_witness :
  locate sample_document [1; 1; 2] = Some (Elem "BUTTON" "" [] [])
  ∧ (∃ parts, toSelector sample_document [1; 1; 2] = Some (join " > " parts)
              ∧ length parts = 4%nat
              ∧ last parts = Some "button")
  ∧ toSelector sample_document [1; 7] = None.
Proof.
  split; [reflexivity|]. split.
  - destruct (proj2 (toSelector_parts sample_document [1; 1; 2]) _
                eq_refl eq_refl) as (parts & Hsel & Hlen & _ & Hlast).
    by exists parts.
  - by apply (proj1 (toSelector_parts sample_document [1; 7])).
Defined.

(** X16. The element itself is never numbered: two children of the same
    parent that have no id, the same node name and the same classes get
    the same selector. *)
Theorem toSelector_siblings_collide (root : Element) (path : list nat)
    (i j : nat) (a b : Element) :
  locate root (path ++ [i]) = Some a →
  locate root (path ++ [j]) = Some b →
  el_id a = "" → el_id b = "" →
  nodeName a = nodeName b → classList a = classList b →
  toSelector root (path ++ [i]) = toSelector root (path ++ [j]).
Proof.
  intros Ha Hb Hia Hib Hn Hc. unfold toSelector.
  rewrite Ha, Hb, Hia, Hib, !selector_loop_chain, !chain_parts_snoc.
  rewrite locate_snoc in Ha, Hb.
  destruct (indexed_parts None root path) as [ps|]; [|done].
  destruct (locate root path) as [parent|]; [|done].
  rewrite Ha, Hb. unfold tag_with_classes. by rewrite Hn, Hc.
Qed.

Lemma toSelector_siblings_collide_witness :
  toSelector button_row_document [0; 0; 0]
  = toSelector button_row_document [0; 0; 1]
  ∧ toSelector button_row_document [0; 0; 1]
    = Some "html > body > form.f > button.btn".
Proof.
  split; [|reflexivity].
  apply (toSelector_siblings_collide button_row_document [0; 0] 0 1
           (Elem "BUTTON" "" ["btn"] []) (Elem "BUTTON" "" ["btn"] []));
    reflexivity.
Defined.

(** ** [cssPath] of the standalone script *)

Lemma locate_app root p q a :
  locate root p = Some a → locate root (p ++ q) = locate a q.
Proof.
  revert root. induction p as [|i p IH]; intros root; simpl.
  - by intros [= ->].
  - destruct (children root !! i); [apply IH|done].
Qed.

Lemma cssPath_loop_below root p a up acc :
  locate root p = Some a → el_id a ≠ "" →
  cssPath_loop root (up ++ rev p) acc = cssPath_loop a up acc.
Proof.
  intros Ha Hid. revert acc. induction up as [|i up IH]; intros acc.
  - destruct p as [|k p _] using rev_ind.
    + simpl in *. injection Ha as ->. by destruct (el_id a).
    + rewrite rev_unit. cbn [app cssPath_loop rev].
      rewrite rev_involutive, Ha.
      simpl. by destruct (el_id a).
  - cbn [app cssPath_loop].
    replace (rev (i :: up ++ rev p)) with (p ++ rev (i :: up))
      by (simpl; by rewrite rev_app_distr, rev_involutive, app_assoc).
    rewrite (locate_app _ _ _ _ Ha).
    destruct (locate a (rev (i :: up))) as [el|]; [|done].
    destruct (el_id el); [|done].
    rewrite rev_app_distr, rev_involutive, (locate_app _ _ _ _ Ha).
    destruct (locate a (rev up)) as [parent|]; [|done].
    apply IH.
Qed.

(** X17. [cssPath] stops at the first element with an id on the way up:
    below an element with an id, the selector is the one computed with
    that element as the root, whatever stands above it; and the selector
    of an element with an id is [tag#id] alone. *)
Theorem cssPath_stops_at_id (root : Element) (p q : list nat) (a : Element) :
  locate root p = Some a → el_id a ≠ "" →
  cssPath root (p ++ q) = cssPath a q
  ∧ cssPath root p = Some (lower (nodeName a) +:+ "#" +:+ el_id a).
Proof.
  intros Ha Hid. unfold cssPath. split.
  - by rewrite rev_app_distr, (cssPath_loop_below _ _ _ _ _ Ha Hid).
  - rewrite <- (app_nil_l (rev p)), (cssPath_loop_below _ _ _ _ _ Ha Hid).
    cbn [cssPath_loop rev locate]. by destruct (el_id a).
Qed.

Lemma cssPath_stops_at_id_witness :
  cssPath sample_document [1; 2; 0] = Some "div#main > a:nth-of-type(1)"
  ∧ cssPath sample_document [1; 2] = Some "div#main"
  ∧ cssPath sample_document [1; 3; 0]
    = Some "html:nth-of-type(1) > body:nth-of-type(1) > form:nth-of-type(2) > button:nth-of-type(1)".
Proof.
  assert (el_id (Elem "DIV" "main" [] [Elem "A" "" [] []]) ≠ "") as Hid
    by discriminate.
  destruct (cssPath_stops_at_id sample_document [1; 2] [0] _ eq_refl Hid)
    as [H1 H2].
  split; [exact (eq_trans H1 eq_refl)|]. split; [exact H2|].
  reflexivity.
Defined.

(** ** [load_targets] and [main] *)

Lemma load_rows_all idx rows :
  Forall (λ row, cell_text (cell_site_id row) ≠ "") rows →
  ∃ targets,
    load_rows idx rows = inr targets
    ∧ Forall2 (λ row t,
        t_raw_site_id t = cell_text (cell_site_id row)
        ∧ t_raw_site_id t ≠ ""
        ∧ t_site_id t = sanitize_site_id (t_raw_site_id t)
        ∧ t_homepage t = cell_text (cell_homepage row)
        ∧ t_notes t = cell_text (cell_notes row)
        ∧ t_submission_url t ≠ Some ""
        ∧ opt_or_empty (t_submission_url t)
          = cell_text (cell_submission_url row))
      rows targets.
Proof.
  intros H. revert idx. induction H as [|row rows Hrow _ IH]; intros idx.
  - exists []. by split; [|constructor].
  - destruct (IH (S idx)) as (targets & Hrest & HF).
    cbn [load_rows]. rewrite Hrest.
    destruct (cell_text (cell_site_id row)) as [|c raw] eqn:Hraw; [done|].
    eexists. split; [done|]. constructor; [|done]. cbn.
    repeat split; try done; by destruct (cell_text (cell_submission_url row)).
Qed.

Lemma load_rows_first_blank idx ok bad rest :
  Forall (λ row, cell_text (cell_site_id row) ≠ "") ok →
  cell_text (cell_site_id bad) = "" →
  load_rows idx (ok ++ bad :: rest)
  = inl (ValueError ("Row " +:+ str_of_nat (idx + length ok + 1)
                     +:+ ": site_id is required")).
Proof.
  intros Hok Hbad. revert idx.
  induction Hok as [|row ok Hrow _ IH]; intros idx.
  - cbn [app load_rows length]. rewrite Hbad. by rewrite Nat.add_0_r.
  - cbn [app load_rows length]. rewrite (IH (S idx)).
    destruct (cell_text (cell_site_id row)); [done|].
    by replace (S idx + length ok + 1)%nat with (idx + S (length ok) + 1)%nat
      by lia.
Qed.

Lemma required_columns_present df :
  (∀ c, c ∈ required_columns → c ∈ frame_columns df) →
  filter (λ c, c ∉ frame_columns df) required_columns = [].
Proof.
  generalize required_columns. intros l H.
  induction l as [|c l IH]; [done|].
  rewrite filter_cons_False.
  - apply IH. intros c' Hc'. apply H. by apply list_elem_of_further.
  - intros Hn. apply Hn, H, list_elem_of_here.
Qed.

(** X18. [load_targets] is all or nothing.  With the four columns present
    and a site id in every row, it returns one target per row, in order:
    the raw id is the stripped cell, the site id its sanitized form, the
    other cells stripped, an empty cell read as the empty text, and the
    submission URL absent rather than empty.  With a row whose site id is
    missing or blank, it raises for the first such row, numbered from 1,
    and returns no target.  With a required column missing it raises
    before reading any row. *)
Theorem load_targets_all_or_nothing (path : string) (df : Frame) :
  ((∀ c, c ∈ required_columns → c ∈ frame_columns df) →
   Forall (λ row, cell_text (cell_site_id row) ≠ "") (frame_rows df) →
   ∃ targets,
     load_targets path (Some df) = inr targets
     ∧ Forall2 (λ row t,
         t_raw_site_id t = cell_text (cell_site_id row)
         ∧ t_raw_site_id t ≠ ""
         ∧ t_site_id t = sanitize_site_id (t_raw_site_id t)
         ∧ t_homepage t = cell_text (cell_homepage row)
         ∧ t_notes t = cell_text (cell_notes row)
         ∧ t_submission_url t ≠ Some ""
         ∧ opt_or_empty (t_submission_url t)
           = cell_text (cell_submission_url row))
       (frame_rows df) targets)
  ∧ (∀ ok bad rest,
        (∀ c, c ∈ required_columns → c ∈ frame_columns df) →
        frame_rows df = ok ++ bad :: rest →
        Forall (λ row, cell_text (cell_site_id row) ≠ "") ok →
        cell_text (cell_site_id bad) = "" →
        load_targets path (Some df)
        = inl (ValueError ("Row " +:+ str_of_nat (S (length ok))
                           +:+ ": site_id is required")))
  ∧ (∀ c, c ∈ required_columns → c ∉ frame_columns df →
          ∃ msg, load_targets path (Some df) = inl (ValueError msg)).
Proof.
  unfold load_targets. split; [|split].
  - intros Hcols Hrows. rewrite (required_columns_present _ Hcols).
    by apply load_rows_all.
  - intros ok bad rest Hcols -> Hok Hbad.
    rewrite (required_columns_present _ Hcols).
    rewrite (load_rows_first_blank 0 ok bad rest Hok Hbad).
    by replace (0 + length ok + 1)%nat with (S (length ok)) by lia.
  - intros c Hc Hnot.
    destruct (filter (λ c, c ∉ frame_columns df) required_columns) eqn:E.
    + assert (c ∈ filter (λ c, c ∉ frame_columns df) required_columns) as Hin
        by (by apply list_elem_of_filter).
      rewrite E in Hin. by apply elem_of_nil in Hin.
    + by eexists.
Qed.

Lemma load_targets_all_or_nothing_witness :
  (∀ c, c ∈ required_columns → c ∈ frame_columns sample_frame)
  ∧ load_targets "targets.csv" (Some sample_frame)
    = inl (ValueError "Row 3: site_id is required")
  ∧ (∃ targets, load_targets "targets.csv" (Some good_frame) = inr targets
                ∧ length targets = 2%nat).
Proof.
  assert (∀ c, c ∈ required_columns → c ∈ frame_columns sample_frame) as H
    by (by intros c Hc).
  split; [exact H|]. split.
  - apply (proj1 (proj2 (load_targets_all_or_nothing "targets.csv" sample_frame))
             (take 2 (frame_rows sample_frame)) blank_id_row []);
      [exact H|reflexivity| |reflexivity].
    repeat constructor; by vm_compute.
  - destruct (proj1 (load_targets_all_or_nothing "targets.csv" good_frame) H)
      as (targets & Hload & HF).
    + repeat constructor; by vm_compute.
    + exists targets. split; [exact Hload|].
      by apply Forall2_length in HF.
Defined.




(** ** [normaliseText] *)

Lemma collapse_spaces_single in_run s :
  single_spaced in_run (collapse_spaces in_run s) = true.
Proof.
  revert in_run. induction s as [|c s IH]; intros in_run; [done|].
  cbn [collapse_spaces]. destruct (is_js_space c) eqn:Hc.
  - destruct in_run; [apply IH|].
    cbn [single_spaced]. by rewrite (IH true).
  - cbn [single_spaced]. rewrite Hc. apply IH.
Qed.

Lemma single_spaced_collapse after s :
  single_spaced after s = true → collapse_spaces after s = s.
Proof.
  revert after. induction s as [|c s IH]; intros after; [done|].
  cbn [single_spaced collapse_spaces]. destruct (is_js_space c).
  - intros [[Hc%Ascii.eqb_eq Ha%negb_true_iff]%andb_true_iff Hs]%andb_true_iff.
    subst. by rewrite (IH true Hs).
  - intros Hs. by rewrite (IH false Hs).
Qed.

Lemma single_spaced_weaken after s :
  single_spaced after s = true → single_spaced false s = true.
Proof.
  destruct s as [|c s]; [done|]. cbn [single_spaced].
  destruct (is_js_space c); [|done].
  intros [[-> _]%andb_true_iff ->]%andb_true_iff. done.
Qed.

Lemma lstrip_single_spaced after s :
  single_spaced after s = true →
  single_spaced false (lstrip js_whitespace s) = true.
Proof.
  revert after. induction s as [|c s IH]; intros after; [done|].
  cbn [lstrip]. fold (is_js_space c).
  destruct (is_js_space c) eqn:Hc.
  - cbn [single_spaced]. rewrite Hc.
    intros [_ Hs]%andb_true_iff. by apply (IH true).
  - apply single_spaced_weaken.
Qed.

Lemma rstrip_single_spaced after s :
  single_spaced after s = true →
  single_spaced after (rstrip js_whitespace s) = true.
Proof.
  revert after. induction s as [|c s IH]; intros after; [done|].
  cbn [single_spaced rstrip]. fold (is_js_space c).
  destruct (is_js_space c) eqn:Hc.
  - intros [Hhd Hs]%andb_true_iff. specialize (IH true Hs).
    destruct (rstrip js_whitespace s) as [|d t]; [done|].
    cbn [single_spaced] in *. by rewrite Hc, Hhd.
  - intros Hs. specialize (IH false Hs).
    destruct (rstrip js_whitespace s) as [|d t].
    + cbn [single_spaced]. by rewrite Hc.
    + cbn [single_spaced] in *. by rewrite Hc.
Qed.

Lemma lstrip_empty_iff chars s :
  lstrip chars s = "" ↔ str_all (λ c, char_in c chars) s = true.
Proof.
  induction s as [|c s IH]; [done|]. cbn [lstrip str_all].
  destruct (char_in c chars); [by rewrite IH|done].
Qed.

Lemma rstrip_empty chars s :
  head_ok chars s = true → rstrip chars s = "" → s = "".
Proof.
  destruct s as [|c s]; [done|]. cbn [head_ok rstrip].
  intros Hc%negb_true_iff. rewrite Hc. by destruct (rstrip chars s).
Qed.

Lemma collapse_spaces_all in_run s :
  str_all is_js_space (collapse_spaces in_run s) = str_all is_js_space s.
Proof.
  revert in_run. induction s as [|c s IH]; intros in_run; [done|].
  cbn [collapse_spaces str_all]. destruct (is_js_space c) eqn:Hc.
  - destruct in_run; [apply IH|]. cbn [str_all]. by rewrite IH.
  - cbn [str_all]. by rewrite Hc.
Qed.

Lemma normaliseText_unfold input :
  normaliseText input = strip js_whitespace (collapse_spaces false input).
Proof. by destruct input. Qed.

Lemma single_spaced_no_double after s :
  single_spaced after s = true → contains "  " s = false.
Proof.
  revert after. induction s as [|c s IH]; intros after; [done|].
  cbn [single_spaced contains starts_with].
  destruct (is_js_space c) eqn:Hc.
  - intros [[Hc' _]%andb_true_iff Hs]%andb_true_iff.
    rewrite (IH true Hs), orb_false_r.
    destruct s as [|d s]; [by rewrite andb_false_r|].
    cbn [single_spaced] in Hs. rewrite andb_true_r.
    destruct (Ascii.eqb " " d) eqn:Hd; [|by rewrite andb_false_r].
    apply Ascii.eqb_eq in Hd. subst d. by rewrite andb_false_r in Hs.
  - intros Hs. rewrite (IH false Hs), orb_false_r.
    destruct (Ascii.eqb " " c) eqn:E; [|done].
    apply Ascii.eqb_eq in E. by subst c.
Qed.

(** X20. [normaliseText] returns a text whose only white space is single
    spaces between words: no white-space character other than the space,
    no two spaces in a row, none at either end; normalising it again
    changes nothing; and the result is empty exactly when the input holds
    nothing but white space, which is when [readLabels] drops a label. *)
Theorem normaliseText_normal (input : string) :
  let text := normaliseText input in
  single_spaced false text = true
  ∧ contains "  " text = false
  ∧ head_ok js_whitespace text = true
  ∧ last_ok js_whitespace text = true
  ∧ normaliseText text = text
  ∧ (text = "" ↔ str_all is_js_space input = true).
Proof.
  intros text. unfold text. rewrite normaliseText_unfold. unfold strip.
  set (collapsed := collapse_spaces false input).
  assert (single_spaced false (rstrip js_whitespace (lstrip js_whitespace collapsed))
          = true) as Hsingle
    by (eapply rstrip_single_spaced, lstrip_single_spaced,
          collapse_spaces_single).
  assert (head_ok js_whitespace
            (rstrip js_whitespace (lstrip js_whitespace collapsed)) = true)
    as Hhead by apply rstrip_head_ok, lstrip_head_ok.
  assert (last_ok js_whitespace
            (rstrip js_whitespace (lstrip js_whitespace collapsed)) = true)
    as Hlast by apply rstrip_last_ok.
  split; [done|]. split; [by apply (single_spaced_no_double false)|].
  split; [done|]. split; [done|]. split.
  - rewrite normaliseText_unfold. unfold strip.
    rewrite (single_spaced_collapse _ _ Hsingle).
    by rewrite (lstrip_id _ _ Hhead), (rstrip_id _ _ Hlast).
  - rewrite <- (collapse_spaces_all false input). fold collapsed.
    change (str_all is_js_space collapsed)
      with (str_all (λ c, char_in c js_whitespace) collapsed).
    rewrite <- lstrip_empty_iff. split.
    + apply rstrip_empty, lstrip_head_ok.
    + by intros ->.
Qed.

(** ** The standalone script: [monitor_once] and the loops of [main] *)

(** X21. [monitor_once] on a page that answers.  For a site without
    stored map it stores the map and logs one INFO event, "Initial map
    created".  For a site with a stored map it stores the new map and adds
    a row to the index in every case; it logs nothing when the DOM hash
    and the summary of the forms are those of the stored map; and when the
    DOM hash differs the first event it logs is the CHANGE "DOM hash
    changed", followed by at most one more. *)
Theorem monitor_once_outcomes (now sid url : string) (data : PageMap)
    (out : LegacyOut) :
  let pm := page_map_of sid url data in
  ∃ out',
    monitor_once now sid url (inr data) out = inr out'
    ∧ legacy_maps (out_store out') !! sid = Some pm
    ∧ legacy_index (out_store out')
      = legacy_index (out_store out) ++ [legacy_row pm]
    ∧ (legacy_maps (out_store out) !! sid = None →
       out_events out'
       = out_events out
         ++ [{| le_ts := now; le_site_id := sid; le_level := "INFO";
                le_message := "Initial map created"; le_extra := "{}" |}])
    ∧ (∀ old, legacy_maps (out_store out) !! sid = Some old →
              pm_dom_sha256 data = pm_dom_sha256 old →
              summarize (pm_forms data) = summarize (pm_forms old) →
              out_events out' = out_events out)
    ∧ (∀ old, legacy_maps (out_store out) !! sid = Some old →
              pm_dom_sha256 data ≠ pm_dom_sha256 old →
              ∃ more,
                out_events out'
                = out_events out
                  ++ {| le_ts := now; le_site_id := sid; le_level := "CHANGE";
                        le_message := "DOM hash changed";
                        le_extra :=
                          json_dumps false false
                            (JDict [("old", JStr (pm_dom_sha256 old));
                                    ("new", JStr (pm_dom_sha256 data))]) |}
                     :: more
                ∧ (length more ≤ 1)%nat).
Proof.
  intros pm. unfold monitor_once. cbn [map_submission_page].
  destruct (legacy_maps (out_store out) !! sid) as [old|] eqn:Hold.
  - eexists. split; [done|].
    cbn [page_map_of pm_dom_sha256 pm_forms].
    destruct (differs_reflect (pm_dom_sha256 data) (pm_dom_sha256 old)) as [Hd|Hd];
      destruct (differs (to_hash (summarize (pm_forms old)))
                        (to_hash (summarize (pm_forms data)))) eqn:Hh;
      cbn; (split; [apply lookup_insert_eq|]); (split; [done|]);
      (split; [done|]); split; intros old' [= <-].
    + intros Heq. by rewrite Heq in Hd.
    + intros _. eexists. rewrite <- app_assoc. split; [done|]. simpl. lia.
    + intros Heq. by rewrite Heq in Hd.
    + intros _. exists []. split; [done|]. simpl. lia.
    + intros _ Hsum. rewrite Hsum in Hh.
      by rewrite (proj2 (differs_false _ _) eq_refl) in Hh.
    + intros Hne. exfalso. apply Hne. by apply dec_stable.
    + done.
    + intros Hne. exfalso. apply Hne. by apply dec_stable.
  - eexists. split; [done|].
    cbn. split; [apply lookup_insert_eq|]. split; [done|].
    split; [done|]. split; intros old [=].
Qed.

Lemma monitor_once_outcomes_witness :
  legacy_maps (out_store empty_out) !! "acme-co" = None
  ∧ le_message <$> out_events out_after_first = ["Initial map created"]
  ∧ le_message <$>
      out_events (monitor_target "t2" "acme-co" "https://acme.test"
                    (inr (legacy_data "11")) out_after_first)
    = ["Initial map created"].
Proof.
  split; [reflexivity|]. split.
  - destruct (monitor_once_outcomes "t1" "acme-co" "https://acme.test"
                (legacy_data "11") empty_out)
      as (out' & Hrun & _ & _ & Hfirst & _).
    unfold out_after_first, monitor_target. rewrite Hrun, (Hfirst eq_refl).
    reflexivity.
  - destruct (monitor_once_outcomes "t2" "acme-co" "https://acme.test"
                (legacy_data "11") out_after_first)
      as (out' & Hrun & _ & _ & _ & Hsame & _).
    unfold monitor_target. rewrite Hrun.
    rewrite (Hsame (page_map_of "acme-co" "https://acme.test"
                      (legacy_data "11"))); reflexivity.
Defined.



(** ** The standalone script: the targets of [main] *)





